(** * Enterprise RAG chatbot: the pipeline of [app.py]

    A shallow embedding of the functions of [src/app.py]
    ([extract_text_from_pdfs], [chunk_text], [create_vector_store],
    [ask_question], [extract_triples], [build_graph]) and the properties
    the specification states about them.

    Python dictionaries are [gmap]s (equality of dictionaries does not
    depend on insertion order, and neither does equality of [gmap]s),
    Python lists are [list]s, and a statement that can raise returns
    [option], [None] standing for the exception. The pretrained models
    and the libraries the script calls are the variables of the sections
    below. *)

From Stdlib Require Import Ascii.
From stdpp Require Import gmap strings list fin_maps sorting.

(** ** Loops over a fallible body *)

(** [for x in xs: s = body(s, x)], where the body may raise. *)
Fixpoint for_each {A S : Type} (xs : list A) (body : S → A → option S) (s : S)
  : option S :=
  match xs with
  | [] => Some s
  | x :: xs' => s' ← body s x; for_each xs' body s'
  end.

(** [range(n)] for a Python integer [n]: empty when [n <= 0]. *)
Definition range (n : Z) : list nat := seq 0 (Z.to_nat n).

(** [len(l)] as a Python integer. *)
Definition len {A : Type} (l : list A) : Z := Z.of_nat (length l).

(** ** The knowledge graph *)

Module Graph.

(** An attribute dictionary, such as [{"label": "related_to"}]. *)
Abbreviation attrs := (gmap string string).

(** Modelled from the spec: [networkx.Graph], the class [build_graph]
    instantiates, is a library class and not part of [src/]. The spec
    describes it as an undirected simple graph whose nodes are entity
    strings compared by exact string equality, and in which a duplicate
    edge overwrites instead of accumulating. The record keeps the two
    dictionaries of the class: [_node] from a node to its attributes and
    [_adj] from a node to the dictionary of its neighbours, each with
    the attributes of the edge. *)
Record t : Type := mk {
  _node : gmap string attrs;
  _adj : gmap string (gmap string attrs)
}.

(** [nx.Graph()] *)
Definition empty : t := {| _node := ∅; _adj := ∅ |}.

(** The first half of [add_edge]: a node that is not yet in [_node]
    gets an empty neighbour dictionary and an empty attribute
    dictionary. *)
Definition touch (u : string) (G : t) : t :=
  match _node G !! u with
  | Some _ => G
  | None => {| _node := <[u := ∅]> (_node G); _adj := <[u := ∅]> (_adj G) |}
  end.

(** [self._adj[u].get(v, {})] *)
Definition get_datadict (G : t) (u v : string) : attrs :=
  default ∅ (_adj G !! u ≫= (.!! v)).

(** [self._adj[u][v] = d] *)
Definition set_adj (u v : string) (d : attrs) (adj : gmap string (gmap string attrs))
  : gmap string (gmap string attrs) :=
  <[u := <[v := d]> (default ∅ (adj !! u))]> adj.

(** Modelled from the spec: [G.add_edge(u, v, **attr)] of the library
    class. Both end points become nodes, the attributes given are
    written over the ones the edge already has ([datadict.update]),
    and the one resulting dictionary is stored in both directions. *)
Definition add_edge (u v : string) (attr : attrs) (G : t) : t :=
  let G1 := touch v (touch u G) in
  let datadict := attr ∪ get_datadict G1 u v in
  {| _node := _node G1;
     _adj := set_adj v u datadict (set_adj u v datadict (_adj G1)) |}.

(** [G.nodes], as the set of keys of [_node], and as a list of keys. *)
Definition nodes (G : t) : gset string := dom (_node G).
Definition node_list (G : t) : list string := (map_to_list (_node G)).*1.

(** [G.has_node(n)] *)
Definition has_node (G : t) (n : string) : bool :=
  bool_decide (is_Some (_node G !! n)).

(** [G.has_edge(u, v)] *)
Definition has_edge (G : t) (u v : string) : bool :=
  match _adj G !! u with
  | Some nbrs => bool_decide (is_Some (nbrs !! v))
  | None => false
  end.

(** [G.edges[u, v]] when the edge exists. *)
Definition edge_data (G : t) (u v : string) : option attrs :=
  _adj G !! u ≫= (.!! v).

(** [G.edges[u, v]["label"]] *)
Definition edge_label (G : t) (u v : string) : option string :=
  edge_data G u v ≫= (.!! "label").

(** [G.neighbors(n)] *)
Definition neighbors (G : t) (n : string) : gset string :=
  dom (default ∅ (_adj G !! n)).

End Graph.

(** The two dictionaries of a graph have the same keys. *)
Definition graph_wf (G : Graph.t) : Prop :=
  ∀ u, is_Some (Graph._adj G !! u) ↔ is_Some (Graph._node G !! u).

(** A triple [(s, p, o)]. *)
Abbreviation triple := (string * string * string)%type.

(** [build_graph] (app.py, lines 83 to 87). *)
Definition build_graph (triples : list triple) : Graph.t :=
  fold_left (λ G '(s, p, o), Graph.add_edge s o {["label" := p]} G)
            triples Graph.empty.

(** Whether the triple [(s, p, o)] joins the nodes [u] and [v], in either
    direction. *)
Definition joins (u v : string) (t : triple) : bool :=
  bool_decide ((t.1.1 = u ∧ t.2 = v) ∨ (t.1.1 = v ∧ t.2 = u)).

(** Whether [n] is the subject or the object of the triple. *)
Definition mentions (n : string) (t : triple) : bool :=
  bool_decide (n = t.1.1 ∨ n = t.2).

(** The label of the last triple of the list that joins [u] and [v]. *)
Definition last_label (u v : string) (triples : list triple) : option string :=
  fold_left (λ acc t, if joins u v t then Some t.1.2 else acc) triples None.

(** Two triples on the same unordered pair of entities. *)
Definition same_pair (t1 t2 : triple) : bool := joins t1.1.1 t1.2 t2.

(** The list without the triples whose unordered pair occurs again
    further on: of the triples on one pair, the last one stays. *)
Fixpoint dedup_pairs (triples : list triple) : list triple :=
  match triples with
  | [] => []
  | t :: rest =>
      if existsb (same_pair t) rest then dedup_pairs rest
      else t :: dedup_pairs rest
  end.

(** No two triples of the list are on the same unordered pair. *)
Fixpoint unique_pairs (triples : list triple) : bool :=
  match triples with
  | [] => true
  | t :: rest => negb (existsb (same_pair t) rest) && unique_pairs rest
  end.

(** How many nodes of the graph are the string [s]. *)
Definition node_count (G : Graph.t) (s : string) : nat :=
  length (filter (s =.) (Graph.node_list G)).

Section KnowledgeGraph.

(** The NER pipeline: [[ent.text for ent in nlp(text).ents]], the
    entity surface strings of a text in document order. *)
Variable nlp : string → list string.

(** The inner loop of [extract_triples] (lines 79 and 80); an index
    out of range raises. *)
Definition append_triples (entities : list string) (triples : list triple)
  : option (list triple) :=
  for_each (range (len entities - 1))
    (λ triples i,
       s ← entities !! i;
       o ← entities !! (i + 1)%nat;
       Some (triples ++ [(s, "related_to", o)]))
    triples.

(** [extract_triples] (lines 73 to 81). *)
Definition extract_triples (texts : list string) : option (list triple) :=
  for_each texts
    (λ triples text,
       let entities := nlp text in
       append_triples entities triples)
    [].

(** The triples one entity sequence contributes: each entity with the
    next one. *)
Definition adjacent_triples (entities : list string) : list triple :=
  zip_with (λ s o, (s, "related_to", o)) entities (tail entities).

(** All the triples of the texts, text after text. *)
Definition triples_of (texts : list string) : list triple :=
  mjoin ((adjacent_triples ∘ nlp) <$> texts).

(** The graph the script holds for a session (lines 107 and 108). *)
Definition knowledge_graph (texts : list string) : option Graph.t :=
  build_graph <$> extract_triples texts.

End KnowledgeGraph.

(** A stand-in for the NER pipeline, for examples: the entities of a
    text are its capitalised words. *)
Definition capitalised (word : string) : bool :=
  match word with
  | String c _ => bool_decide (65 ≤ nat_of_ascii c ≤ 90)%nat
  | EmptyString => false
  end.

Definition word_ner (text : string) : list string :=
  filter (λ w, capitalised w = true) (String.words text).

(** ** PDF text extraction *)

(** What [PdfReader(file)] returns: an object with the list [pages]. *)
Record reader (Page : Type) : Type := { pages : list Page }.
Arguments pages {Page} _.

Section Extraction.

(** Uploaded files and the pages of a PDF are opaque. *)
Variables File Page : Type.

(** [PdfReader(file)] raises on a file it cannot read. *)
Variable PdfReader : File → option (reader Page).

(** [page.extract_text()] returns a string, the empty one for a page
    without a text layer. *)
Variable extract_text : Page → string.

(** [extract_text_from_pdfs] (lines 30 to 36). *)
Definition extract_text_from_pdfs (files : list File) : option (list string) :=
  for_each files
    (λ texts file,
       reader ← PdfReader file;
       for_each (pages reader)
         (λ texts page, Some (texts ++ [extract_text page]))
         texts)
    [].

(** The number of pages of a file (of a file that cannot be read, none). *)
Definition page_count (file : File) : nat :=
  from_option (λ r, length (pages r)) 0%nat (PdfReader file).

(** The texts of the pages of a file, in page order. *)
Definition page_texts (file : File) : list string :=
  from_option (λ r, extract_text <$> pages r) [] (PdfReader file).

End Extraction.

(** A stand-in for the PDF library, for examples: a file is the list of
    the texts of its pages, or nothing when it cannot be read. *)
Definition list_reader (file : option (list string)) : option (reader string) :=
  (λ texts, {| pages := texts |}) <$> file.

(** ** Chunking *)

(** A document chunk: its text and opaque metadata. *)
Record Document : Type := {
  page_content : string;
  metadata : gmap string string
}.

Section Chunking.

(** [RecursiveCharacterTextSplitter(chunk_size, chunk_overlap)], seen
    through its [split_text]: the chunks of one string. The splitting
    algorithm belongs to the library. *)
Variable RecursiveCharacterTextSplitter : nat → nat → string → list string.

(** Modelled from the spec: [create_documents] of the splitter is library
    code, not part of [src/]. Per the spec the chunker maps a sequence of
    raw strings to a sequence of chunks, each source string split on its
    own, and each chunk retains only its text. *)
Definition create_documents (split_text : string → list string)
    (texts : list string) : list Document :=
  text ← texts;
  chunk ← split_text text;
  [{| page_content := chunk; metadata := ∅ |}].

(** [chunk_text] (lines 38 to 43). *)
Definition chunk_text (texts : list string) : list Document :=
  let splitter := RecursiveCharacterTextSplitter 800 150 in
  create_documents splitter texts.

End Chunking.

(** A stand-in for the splitter, for examples: windows of [chunk_size]
    characters, each starting [chunk_size - chunk_overlap] characters
    after the one before; the empty string has no chunk. *)
Fixpoint windows (fuel size step : nat) (text : string) : list string :=
  match fuel with
  | O => []
  | S fuel' =>
      if bool_decide (String.length text ≤ size)%nat then [text]
      else String.substring 0 size text
           :: windows fuel' size step
                (String.substring step (String.length text - step) text)
  end.

Definition window_splitter (chunk_size chunk_overlap : nat) (text : string)
  : list string :=
  if bool_decide (text = "") then []
  else windows (String.length text) chunk_size (chunk_size - chunk_overlap) text.

(** ** The vector index *)

(** A stable insertion sort for a comparison [leb]: among elements that
    compare equal the earlier one stays first. *)
Fixpoint insert_by {A : Type} (leb : A → A → bool) (x : A) (l : list A) : list A :=
  match l with
  | [] => [x]
  | y :: l' => if leb x y then x :: l else y :: insert_by leb x l'
  end.

Definition sort_by {A : Type} (leb : A → A → bool) (l : list A) : list A :=
  foldr (insert_by leb) [] l.

Module VectorStore.
Section VectorStore.

(** The embedding model, a pure function of the text, and the
    similarity of two embeddings, in some totally preordered type of
    scores. *)
Variables Vec Score : Type.
Variable embed : string → Vec.
Variable similarity : Vec → Vec → Score.
Variable score_leb : Score → Score → bool.

(** Modelled from the spec: the vector index ([FAISS] of
    [langchain_community]) is library code, not part of [src/]. Per the
    spec it attaches one embedding to each chunk and is built once from
    the full chunk set. *)
Record t : Type := { entries : list (Vec * Document) }.

(** Modelled from the spec: [FAISS.from_documents(docs, embedding)]; each
    chunk is embedded independently, from its text. *)
Definition from_documents (docs : list Document) : t :=
  {| entries := (λ d, (embed (page_content d), d)) <$> docs |}.

(** Whether entry [a] ranks before entry [b] for the query vector [q]:
    [a] is at least as similar to [q] as [b] is. *)
Definition ranks_before (q : Vec) (a b : Vec * Document) : bool :=
  score_leb (similarity q b.1) (similarity q a.1).

(** Modelled from the spec: [similarity_search(query, k)] of the index.
    Per the spec, [query(vector, k)] gives the ordered list of the [k]
    nearest chunks by similarity, ties broken by a stable order, and all
    the chunks when fewer than [k] are indexed; the question is embedded
    with the model used for indexing, as one query vector. *)
Definition similarity_search (vector_db : t) (query : string) (k : nat)
  : list Document :=
  let q := embed query in
  (take k (sort_by (ranks_before q) (entries vector_db))).*2.

End VectorStore.
End VectorStore.

(** [create_vector_store] (lines 47 and 48). *)
Definition create_vector_store {Vec : Type} (embedding_model : string → Vec)
    (docs : list Document) : VectorStore.t Vec :=
  VectorStore.from_documents Vec embedding_model docs.

(** A stand-in for the embedding model and the similarity, for examples:
    a text is embedded as its length, and two embeddings are the more
    similar the closer they are. *)
Definition length_embedding (text : string) : Z := Z.of_nat (String.length text).
Definition closeness (a b : Z) : Z := (- Z.abs (a - b))%Z.

Definition sample_chunks : list Document :=
  [ {| page_content := "alpha"; metadata := ∅ |};
    {| page_content := "be"; metadata := ∅ |};
    {| page_content := "gamma delta"; metadata := ∅ |};
    {| page_content := "pi"; metadata := ∅ |} ].

(** ** The chatbot *)

(** The characters the prompt needs: a line feed and a double quote. *)
Definition nl : string := String "010"%char "".
Definition dquote : string := String "034"%char "".

(** [sep.join(parts)] *)
Definition join (sep : string) (parts : list string) : string :=
  String.concat sep parts.

(** [s.split(c)] for a separator of one character. *)
Fixpoint split_on (c : ascii) (s : string) : list string :=
  match s with
  | EmptyString => [""]
  | String a s' =>
      if Ascii.eqb a c then "" :: split_on c s'
      else match split_on c s' with
           | piece :: pieces => String a piece :: pieces
           | [] => [String a ""]
           end
  end.

(** The texts one after the other, a line feed between each two, as the
    spec words the context block. *)
Fixpoint newline_separated (texts : list string) : string :=
  match texts with
  | [] => ""
  | text :: rest =>
      match rest with
      | [] => text
      | _ :: _ => text +:+ nl +:+ newline_separated rest
      end
  end.

(** The f-string of [ask_question] (lines 56 to 67). *)
Definition prompt_of (context question : string) : string :=
  nl +:+ "Answer ONLY from the context below." +:+ nl
  +:+ "If not found, say " +:+ dquote +:+ "Answer not found in the documents."
  +:+ dquote +:+ nl
  +:+ nl
  +:+ "Context:" +:+ nl
  +:+ context +:+ nl
  +:+ nl
  +:+ "Question:" +:+ nl
  +:+ question +:+ nl
  +:+ nl
  +:+ "Answer:" +:+ nl.

(** The instructions that open the prompt, and its last lines. *)
Definition prompt_header : string :=
  nl +:+ "Answer ONLY from the context below." +:+ nl
  +:+ "If not found, say " +:+ dquote +:+ "Answer not found in the documents."
  +:+ dquote +:+ nl
  +:+ nl.

Definition prompt_footer : string := nl +:+ nl +:+ "Answer:" +:+ nl.

Section Chatbot.

Variables Vec Score : Type.
Variable embedding_model : string → Vec.
Variable similarity : Vec → Vec → Score.
Variable score_leb : Score → Score → bool.

(** The generation pipeline: for a prompt, the list of its generations,
    each a dictionary with the key ["generated_text"]. *)
Variable llm : string → list (gmap string string).

(** The retrieval step of [ask_question] (line 53). *)
Definition retrieve (vector_db : VectorStore.t Vec) (question : string)
  : list Document :=
  VectorStore.similarity_search Vec Score embedding_model similarity score_leb
    vector_db question 3.

(** The context block of [ask_question] (line 54). *)
Definition context_of (docs : list Document) : string :=
  join nl (page_content <$> docs).

(** [ask_question] (lines 52 to 69); indexing the list of generations
    and the dictionary of the first one can raise. *)
Definition ask_question (vector_db : VectorStore.t Vec) (question : string)
  : option (string * list Document) :=
  let docs := retrieve vector_db question in
  let context := context_of docs in
  let prompt := prompt_of context question in
  generation ← llm prompt !! 0%nat;
  response ← generation !! "generated_text";
  Some (response, docs).

End Chatbot.

(** A stand-in for the generation pipeline, for examples: one generation,
    the fallback sentence. *)
Definition fallback_llm (prompt : string) : list (gmap string string) :=
  [{["generated_text" := "Answer not found in the documents."]}].

(** ** The script *)

(** What one run of the script shows: the answer written under
    "Answer", if any, and the graph drawn, if any. *)
Record screen : Type := {
  answer : option string;
  drawn : option Graph.t
}.

Section App.

Variables File Page : Type.
Variable PdfReader : File → option (reader Page).
Variable extract_text : Page → string.
Variable RecursiveCharacterTextSplitter : nat → nat → string → list string.
Variables Vec Score : Type.
Variable embedding_model : string → Vec.
Variable similarity : Vec → Vec → Score.
Variable score_leb : Score → Score → bool.
Variable llm : string → list (gmap string string).
Variable nlp : string → list string.

(** The body of the script (lines 100 to 131) for one run: the files of
    the uploader, the text of the input field and whether the button was
    pressed. An empty list of files and an empty question are false in
    the tests of lines 100 and 116. *)
Definition app (uploaded_files : list File) (question : string)
    (show_graph : bool) : option screen :=
  match uploaded_files with
  | [] => Some {| answer := None; drawn := None |}
  | _ :: _ =>
      texts ← extract_text_from_pdfs File Page PdfReader extract_text uploaded_files;
      let docs := chunk_text RecursiveCharacterTextSplitter texts in
      let vector_db := create_vector_store embedding_model docs in
      triples ← extract_triples nlp texts;
      let graph := build_graph triples in
      written ←
        (if bool_decide (question = "") then Some None
         else
           result ← ask_question Vec Score embedding_model similarity score_leb llm
                      vector_db question;
           Some (Some result.1));
      Some {| answer := written;
              drawn := if show_graph then Some graph else None |}
  end.

End App.

(** Whether the character occurs in the string. *)
Fixpoint contains_char (c : ascii) (s : string) : bool :=
  match s with
  | EmptyString => false
  | String a s' => Ascii.eqb a c || contains_char c s'
  end.

(** * Properties *)

(** ** Loops *)

Lemma for_each_ext {A S : Type} (xs : list A) (f g : S → A → option S) (s : S) :
  (∀ s x, x ∈ xs → f s x = g s x) → for_each xs f s = for_each xs g s.
Proof.
  revert s. induction xs as [|x xs IH]; intros s Hfg; simpl; [done|].
  rewrite Hfg by left. destruct (g s x) as [s'|]; simpl; [|done].
  apply IH. intros s0 y Hy. apply Hfg. by right.
Qed.

Lemma for_each_fmap {A B S : Type} (h : A → B) (xs : list A)
    (body : S → B → option S) (s : S) :
  for_each (h <$> xs) body s = for_each xs (λ s x, body s (h x)) s.
Proof.
  revert s. induction xs as [|x xs IH]; intros s; simpl; [done|].
  destruct (body s (h x)) as [s'|]; simpl; [apply IH | done].
Qed.

(** A loop whose body appends to the accumulator and never fails. *)
Lemma for_each_append {A B : Type} (xs : list A) (f : A → list B) (acc : list B) :
  for_each xs (λ acc x, Some (acc ++ f x)) acc = Some (acc ++ mjoin (f <$> xs)).
Proof.
  revert acc. induction xs as [|x xs IH]; intros acc; simpl.
  - by rewrite app_nil_r.
  - rewrite IH. by rewrite <- app_assoc.
Qed.

Lemma mjoin_cons {A : Type} (x : list A) (l : list (list A)) :
  mjoin (x :: l) = x ++ mjoin l.
Proof. done. Qed.

Lemma range_len_pred {A : Type} (x : A) (l : list A) :
  range (len (x :: l) - 1) = seq 0 (length l).
Proof. unfold range, len. simpl length. f_equal. lia. Qed.

(** ** Triples *)

Section TripleFacts.

Variable nlp : string → list string.

(** The inner loop never reads out of range: it appends the adjacent
    pairs of the entity list. *)
Lemma append_triples_total (entities : list string) (triples : list triple) :
  append_triples entities triples = Some (triples ++ adjacent_triples entities).
Proof.
  unfold append_triples. revert triples.
  induction entities as [|e rest IH]; intros triples.
  - simpl. by rewrite app_nil_r.
  - rewrite range_len_pred. destruct rest as [|e' rest'].
    + simpl. by rewrite app_nil_r.
    + specialize (IH (triples ++ [(e, "related_to", e')])).
      rewrite range_len_pred in IH.
      change (seq 0 (length (e' :: rest'))) with (0%nat :: seq 1 (length rest')).
      rewrite <- fmap_S_seq. cbn [for_each]. simpl lookup. cbn [mbind option_bind].
      rewrite for_each_fmap.
      etransitivity; [|etransitivity; [exact IH|]].
      * apply for_each_ext. intros acc i _. reflexivity.
      * rewrite <- app_assoc. reflexivity.
Qed.

(** [extract_triples] never raises: its result is the adjacent pairs of
    each text, text after text. *)
Lemma extract_triples_total (texts : list string) :
  extract_triples nlp texts = Some (mjoin ((adjacent_triples ∘ nlp) <$> texts)).
Proof.
  unfold extract_triples.
  rewrite (for_each_ext _ _ (λ acc text, Some (acc ++ adjacent_triples (nlp text)))).
  - by rewrite for_each_append.
  - intros acc text _. apply append_triples_total.
Qed.

End TripleFacts.

(** ** The graph class *)

Lemma empty_wf : graph_wf Graph.empty.
Proof. intros u. simpl. by rewrite !lookup_empty. Qed.

Lemma touch_node (u n : string) (G : Graph.t) :
  Graph._node (Graph.touch u G) !! n =
  if decide (n = u) then Some (default ∅ (Graph._node G !! u))
  else Graph._node G !! n.
Proof.
  unfold Graph.touch. destruct (Graph._node G !! u) as [a|] eqn:Hu; simpl.
  - case_decide; by subst.
  - case_decide; subst; [by rewrite lookup_insert_eq | by rewrite lookup_insert_ne].
Qed.

Lemma touch_wf (u : string) (G : Graph.t) :
  graph_wf G → graph_wf (Graph.touch u G).
Proof.
  intros Hwf x. unfold Graph.touch.
  destruct (Graph._node G !! u) as [a|] eqn:Hu; simpl; [apply Hwf|].
  destruct (decide (x = u)) as [->|Hne].
  - rewrite !lookup_insert_eq. split; eauto.
  - rewrite !lookup_insert_ne by done. apply Hwf.
Qed.

Lemma touch_edge_data (u x y : string) (G : Graph.t) :
  graph_wf G → Graph.edge_data (Graph.touch u G) x y = Graph.edge_data G x y.
Proof.
  intros Hwf. unfold Graph.touch, Graph.edge_data.
  destruct (Graph._node G !! u) as [a|] eqn:Hu; simpl; [done|].
  destruct (decide (x = u)) as [->|Hne].
  - rewrite lookup_insert_eq. simpl.
    destruct (Graph._adj G !! u) as [m|] eqn:Hm; simpl; [|by rewrite lookup_empty].
    assert (is_Some (Graph._node G !! u)) as [? ?] by (apply Hwf; eauto).
    congruence.
  - by rewrite lookup_insert_ne.
Qed.

Lemma set_adj_lookup (u v x y : string) (d : Graph.attrs)
    (adj : gmap string (gmap string Graph.attrs)) :
  Graph.set_adj u v d adj !! x ≫= (.!! y) =
  if decide (x = u ∧ y = v) then Some d else adj !! x ≫= (.!! y).
Proof.
  unfold Graph.set_adj. destruct (decide (x = u)) as [->|Hne].
  - rewrite lookup_insert_eq. simpl. destruct (decide (y = v)) as [->|Hy].
    + rewrite lookup_insert_eq. by rewrite decide_True.
    + rewrite lookup_insert_ne by done. rewrite decide_False; [|naive_solver].
      destruct (adj !! u); simpl; [done | by rewrite lookup_empty].
  - rewrite lookup_insert_ne by done. rewrite decide_False; naive_solver.
Qed.

Lemma set_adj_is_Some (u v x : string) (d : Graph.attrs)
    (adj : gmap string (gmap string Graph.attrs)) :
  is_Some (Graph.set_adj u v d adj !! x) ↔ x = u ∨ is_Some (adj !! x).
Proof.
  unfold Graph.set_adj. destruct (decide (x = u)) as [->|Hne].
  - rewrite lookup_insert_eq. split; eauto.
  - rewrite lookup_insert_ne by done. naive_solver.
Qed.

(** The nodes after [add_edge]: the two end points are nodes, with the
    attributes they had if they were nodes already. *)
Lemma add_edge_node (u v n : string) (a : Graph.attrs) (G : Graph.t) :
  Graph._node (Graph.add_edge u v a G) !! n =
  if decide (n = u ∨ n = v) then Some (default ∅ (Graph._node G !! n))
  else Graph._node G !! n.
Proof.
  unfold Graph.add_edge. simpl. rewrite !touch_node.
  repeat case_decide; subst; naive_solver.
Qed.

Lemma add_edge_wf (u v : string) (a : Graph.attrs) (G : Graph.t) :
  graph_wf G → graph_wf (Graph.add_edge u v a G).
Proof.
  intros Hwf x. pose proof (touch_wf v _ (touch_wf u _ Hwf)) as Hwf'.
  rewrite add_edge_node. unfold Graph.add_edge. simpl.
  rewrite !set_adj_is_Some, (Hwf' x), !touch_node.
  repeat case_decide; naive_solver.
Qed.

(** The edges after [add_edge]: the edge between the end points, read in
    either direction, carries the new attributes over the ones it had;
    every other edge is as before. *)
Lemma add_edge_edge_data (u v x y : string) (a : Graph.attrs) (G : Graph.t) :
  graph_wf G →
  Graph.edge_data (Graph.add_edge u v a G) x y =
  if decide ((x = u ∧ y = v) ∨ (x = v ∧ y = u))
  then Some (a ∪ default ∅ (Graph.edge_data G u v))
  else Graph.edge_data G x y.
Proof.
  intros Hwf. unfold Graph.add_edge.
  set (G1 := Graph.touch v (Graph.touch u G)).
  assert (∀ x y, Graph.edge_data G1 x y = Graph.edge_data G x y) as HG1.
  { intros x' y'. unfold G1.
    rewrite touch_edge_data by by apply touch_wf. by apply touch_edge_data. }
  unfold Graph.get_datadict. change (Graph._adj G1 !! u ≫= (.!! v)) with (Graph.edge_data G1 u v).
  rewrite HG1. unfold Graph.edge_data at 1. simpl.
  rewrite !set_adj_lookup. change (Graph._adj G1 !! x ≫= (.!! y)) with (Graph.edge_data G1 x y).
  rewrite HG1. repeat case_decide; naive_solver.
Qed.

(** Two graphs with the same nodes and the same edge attributes are
    equal. *)
Lemma graph_eq (G1 G2 : Graph.t) :
  graph_wf G1 → graph_wf G2 →
  (∀ n, Graph._node G1 !! n = Graph._node G2 !! n) →
  (∀ u v, Graph.edge_data G1 u v = Graph.edge_data G2 u v) →
  G1 = G2.
Proof.
  intros Hwf1 Hwf2 Hnode Hedge.
  assert (Graph._node G1 = Graph._node G2) as Hn by by apply map_eq.
  assert (Graph._adj G1 = Graph._adj G2) as Ha.
  { apply map_eq. intros u. pose proof (Hwf1 u) as H1. pose proof (Hwf2 u) as H2.
    rewrite Hnode in H1. pose proof (Hedge u) as He. unfold Graph.edge_data in He.
    destruct (Graph._adj G1 !! u) as [m1|] eqn:Hm1,
             (Graph._adj G2 !! u) as [m2|] eqn:Hm2; simpl in He.
    - f_equal. apply map_eq. intros v. apply He.
    - exfalso. assert (is_Some (None : option (gmap string Graph.attrs))) as [? ?]; [|done].
      apply H2, H1. eauto.
    - exfalso. assert (is_Some (None : option (gmap string Graph.attrs))) as [? ?]; [|done].
      apply H1, H2. eauto.
    - done. }
  destruct G1, G2. simpl in *. by subst.
Qed.

Lemma has_edge_edge_data (G : Graph.t) (u v : string) :
  Graph.has_edge G u v = bool_decide (is_Some (Graph.edge_data G u v)).
Proof.
  unfold Graph.has_edge, Graph.edge_data.
  by destruct (Graph._adj G !! u) as [m|].
Qed.

(** ** [build_graph] *)

Lemma build_graph_snoc (triples : list triple) (s p o : string) :
  build_graph (triples ++ [(s, p, o)]) =
  Graph.add_edge s o {["label" := p]} (build_graph triples).
Proof. unfold build_graph. by rewrite fold_left_app. Qed.

Lemma build_graph_wf (triples : list triple) : graph_wf (build_graph triples).
Proof.
  induction triples as [|[[s p] o] triples IH] using rev_ind.
  - apply empty_wf.
  - rewrite build_graph_snoc. by apply add_edge_wf.
Qed.

(** The nodes of the graph are the subjects and objects of the triples,
    without attributes. *)
Lemma build_graph_node (triples : list triple) (n : string) :
  Graph._node (build_graph triples) !! n =
  if existsb (mentions n) triples then Some ∅ else None.
Proof.
  induction triples as [|[[s p] o] triples IH] using rev_ind.
  - done.
  - rewrite build_graph_snoc, add_edge_node, IH, existsb_app.
    cbn [existsb]. rewrite orb_false_r.
    destruct (existsb (mentions n) triples); unfold mentions; cbn [fst snd orb default];
      case_decide; try case_bool_decide; naive_solver.
Qed.

Lemma label_update (p : string) (old : option string) :
  ({["label" := p]} : Graph.attrs)
    ∪ default ∅ ((λ q, ({["label" := q]} : Graph.attrs)) <$> old)
  = {["label" := p]}.
Proof.
  destruct old as [q|]; simpl; [|by rewrite (right_id_L ∅ (∪))].
  apply map_eq. intros k. rewrite lookup_union.
  destruct (decide (k = "label")) as [->|Hk].
  - by rewrite !lookup_singleton_eq.
  - by rewrite !lookup_singleton_ne.
Qed.

Lemma last_label_snoc (u v : string) (triples : list triple) (t : triple) :
  last_label u v (triples ++ [t]) =
  if joins u v t then Some t.1.2 else last_label u v triples.
Proof. unfold last_label. by rewrite fold_left_app. Qed.

(** The attributes of the edge between [u] and [v]: the label of the last
    triple that joins them, and nothing else. *)
Lemma build_graph_edge_data (triples : list triple) (u v : string) :
  Graph.edge_data (build_graph triples) u v =
  (λ p, {["label" := p]}) <$> last_label u v triples.
Proof.
  revert u v. induction triples as [|[[s p] o] triples IH] using rev_ind; intros u v.
  - done.
  - rewrite build_graph_snoc, add_edge_edge_data by apply build_graph_wf.
    rewrite last_label_snoc, IH, label_update. unfold joins. cbn [fst snd].
    case_decide; case_bool_decide; naive_solver.
Qed.

Lemma last_label_sym (u v : string) (triples : list triple) :
  last_label u v triples = last_label v u triples.
Proof.
  induction triples as [|t triples IH] using rev_ind; [done|].
  rewrite !last_label_snoc, IH. unfold joins.
  repeat case_bool_decide; naive_solver.
Qed.

Lemma last_label_cons (u v : string) (t : triple) (triples : list triple) :
  last_label u v (t :: triples) =
  match last_label u v triples with
  | Some q => Some q
  | None => if joins u v t then Some t.1.2 else None
  end.
Proof.
  induction triples as [|t' triples IH] using rev_ind.
  - done.
  - rewrite app_comm_cons, !last_label_snoc, IH.
    by destruct (joins u v t').
Qed.

Lemma last_label_is_Some (u v : string) (triples : list triple) :
  is_Some (last_label u v triples) ↔ existsb (joins u v) triples = true.
Proof.
  induction triples as [|t triples IH]; simpl.
  - split; [by intros [? ?] | done].
  - rewrite last_label_cons, orb_true_iff, <- IH.
    destruct (last_label u v triples), (joins u v t); naive_solver.
Qed.

(** Graphs built from triple lists with the same end points and the same
    last labels are the same graph. *)
Lemma build_graph_ext (ts1 ts2 : list triple) :
  (∀ n, existsb (mentions n) ts1 = existsb (mentions n) ts2) →
  (∀ u v, last_label u v ts1 = last_label u v ts2) →
  build_graph ts1 = build_graph ts2.
Proof.
  intros Hn He. apply graph_eq; try apply build_graph_wf.
  - intros n. by rewrite !build_graph_node, Hn.
  - intros u v. by rewrite !build_graph_edge_data, He.
Qed.

Lemma build_graph_has_edge (triples : list triple) (u v : string) :
  Graph.has_edge (build_graph triples) u v = existsb (joins u v) triples.
Proof.
  rewrite has_edge_edge_data, build_graph_edge_data.
  apply eq_true_iff_eq. rewrite bool_decide_eq_true, fmap_is_Some.
  apply last_label_is_Some.
Qed.

Lemma build_graph_edge_label (triples : list triple) (u v : string) :
  Graph.edge_label (build_graph triples) u v = last_label u v triples.
Proof.
  unfold Graph.edge_label. rewrite build_graph_edge_data.
  destruct (last_label u v triples); simpl; [|done].
  by rewrite lookup_singleton_eq.
Qed.

Lemma build_graph_nodes (triples : list triple) (n : string) :
  n ∈ Graph.nodes (build_graph triples) ↔ existsb (mentions n) triples = true.
Proof.
  unfold Graph.nodes. rewrite elem_of_dom, build_graph_node.
  destruct (existsb (mentions n) triples); split; (done || eauto).
Qed.

(** The last label of a pair is the label of a triple of the list that
    joins the pair. *)
Lemma last_label_Some (u v q : string) (triples : list triple) :
  last_label u v triples = Some q →
  ∃ t, t ∈ triples ∧ joins u v t = true ∧ t.1.2 = q.
Proof.
  induction triples as [|t triples IH]; [done|].
  rewrite last_label_cons. destruct (last_label u v triples) as [q'|].
  - intros [= ->]. destruct IH as (t' & ? & ? & ?); [done|].
    exists t'. split; [by right | done].
  - destruct (joins u v t) eqn:Hj; [|done]. intros [= <-].
    exists t. split; [by left | done].
Qed.

Lemma neighbors_edge_data (G : Graph.t) (n m : string) :
  m ∈ Graph.neighbors G n ↔ is_Some (Graph.edge_data G n m).
Proof.
  unfold Graph.neighbors, Graph.edge_data. rewrite elem_of_dom.
  destruct (Graph._adj G !! n); simpl; [done|]. by rewrite lookup_empty.
Qed.

Lemma node_count_NoDup (l : list string) (s : string) :
  NoDup l → length (filter (s =.) l) = if decide (s ∈ l) then 1%nat else 0%nat.
Proof.
  induction 1 as [|x l Hx Hl IH]; [done|].
  rewrite filter_cons. destruct (decide (s = x)) as [<-|Hne].
  - simpl. rewrite IH. rewrite decide_False by done.
    by rewrite decide_True by left.
  - rewrite IH. destruct (decide (s ∈ l)) as [Hin|Hin].
    + by rewrite decide_True by by right.
    + rewrite decide_False; [done|]. rewrite elem_of_cons. naive_solver.
Qed.

(** A string is the name of at most one node, and of exactly one when it
    is a node. *)
Lemma node_count_nodes (G : Graph.t) (s : string) :
  node_count G s = if decide (s ∈ Graph.nodes G) then 1%nat else 0%nat.
Proof.
  unfold node_count, Graph.node_list, Graph.nodes.
  rewrite node_count_NoDup by apply NoDup_fst_map_to_list.
  assert (s ∈ (map_to_list (Graph._node G)).*1 ↔ s ∈ dom (Graph._node G)) as Hiff.
  { rewrite elem_of_dom, list_elem_of_fmap. split.
    - intros [[k a] [-> Hka]]. apply elem_of_map_to_list in Hka. eauto.
    - intros [a Ha]. exists (s, a). split; [done|]. by apply elem_of_map_to_list. }
  repeat case_decide; naive_solver.
Qed.

(** ** Adjacent pairs of an entity sequence *)

Lemma adjacent_triples_cons (a b : string) (l : list string) :
  adjacent_triples (a :: b :: l) = (a, "related_to", b) :: adjacent_triples (b :: l).
Proof. done. Qed.

Lemma adjacent_triples_short (l : list string) :
  length l ≤ 1 → adjacent_triples l = [].
Proof. destruct l as [|a [|b l]]; simpl; (done || lia). Qed.

Lemma adjacent_triples_label (l : list string) (t : triple) :
  t ∈ adjacent_triples l → t.1.2 = "related_to".
Proof.
  revert t. induction l as [|a [|b l] IH]; intros t; [by inversion 1..|].
  rewrite adjacent_triples_cons, elem_of_cons. intros [->|Ht]; [done|by apply IH].
Qed.

(** Two entities next to each other give a triple. *)
Lemma adjacent_triples_middle (pre post : list string) (a b : string) :
  (a, "related_to", b) ∈ adjacent_triples (pre ++ a :: b :: post).
Proof.
  induction pre as [|x pre IH]; simpl.
  - rewrite adjacent_triples_cons. by left.
  - destruct (pre ++ a :: b :: post) as [|y l] eqn:Hl.
    + by destruct pre.
    + rewrite adjacent_triples_cons. by right.
Qed.

(** In a sequence of two entities or more, every entity occurs in a
    triple. *)
Lemma adjacent_triples_mentions (l : list string) (s : string) :
  s ∈ l → 2 ≤ length l → existsb (mentions s) (adjacent_triples l) = true.
Proof.
  induction l as [|a [|b l] IH]; intros Hs Hlen; simpl in Hlen; [lia..|].
  rewrite adjacent_triples_cons. cbn [existsb]. apply orb_true_iff.
  apply elem_of_cons in Hs as [->|Hs].
  - left. unfold mentions. apply bool_decide_eq_true. by left.
  - destruct l as [|c l].
    + left. apply list_elem_of_singleton in Hs as ->.
      unfold mentions. apply bool_decide_eq_true. by right.
    + right. apply IH; [done | simpl; lia].
Qed.

(** Every triple of the texts carries the label "related_to". *)
Lemma extracted_label (nlp : string → list string) (texts : list string) (t : triple) :
  t ∈ mjoin ((adjacent_triples ∘ nlp) <$> texts) → t.1.2 = "related_to".
Proof.
  intros (l & Ht & Hl)%list_elem_of_join.
  apply list_elem_of_fmap in Hl as (text & -> & _).
  by apply adjacent_triples_label in Ht.
Qed.

(** In a graph whose triples all carry "related_to", so does every
    edge. *)
Lemma related_to_label (triples : list triple) (u v : string) :
  (∀ t, t ∈ triples → t.1.2 = "related_to") →
  Graph.has_edge (build_graph triples) u v = true →
  Graph.edge_label (build_graph triples) u v = Some "related_to".
Proof.
  intros Hlab Hedge. rewrite build_graph_edge_label.
  rewrite has_edge_edge_data, build_graph_edge_data in Hedge.
  apply bool_decide_eq_true, fmap_is_Some in Hedge as [q Hq]. rewrite Hq.
  apply last_label_Some in Hq as (t & Ht & _ & <-). f_equal. by apply Hlab.
Qed.

Lemma existsb_elem_of {A : Type} (f : A → bool) (l : list A) :
  existsb f l = true ↔ ∃ x, x ∈ l ∧ f x = true.
Proof.
  rewrite existsb_exists. by setoid_rewrite list_elem_of_In.
Qed.

Lemma elem_of_mjoin_fmap {A B : Type} (f : A → list B) (l : list A) (x : A) (y : B) :
  x ∈ l → y ∈ f x → y ∈ mjoin (f <$> l).
Proof.
  intros Hx Hy. apply list_elem_of_join. exists (f x). split; [done|].
  apply list_elem_of_fmap. eauto.
Qed.

(** ** Nodes and edges of the knowledge graph *)

(** C10. Every node of a graph returned by [build_graph] is an end point
    of an edge of that graph: whatever the triple list, a node has a
    neighbour (itself, for a self-loop), so no node is isolated. *)
Theorem build_graph_no_isolated_node (triples : list triple) (n : string) :
  n ∈ Graph.nodes (build_graph triples) →
  ∃ m, Graph.has_edge (build_graph triples) n m = true
       ∧ Graph.has_edge (build_graph triples) m n = true
       ∧ m ∈ Graph.neighbors (build_graph triples) n.
Proof.
  intros Hn. apply build_graph_nodes, existsb_elem_of in Hn as ([[s p] o] & Ht & Hm).
  apply bool_decide_eq_true in Hm. simpl in Hm.
  assert (∃ m, joins n m (s, p, o) = true ∧ joins m n (s, p, o) = true) as (m & H1 & H2).
  { destruct Hm as [->| ->]; [exists o | exists s];
      split; apply bool_decide_eq_true; simpl; naive_solver. }
  assert (Graph.has_edge (build_graph triples) n m = true) as Hnm.
  { rewrite build_graph_has_edge, existsb_elem_of. eauto. }
  exists m. split; [done|]. split.
  - rewrite build_graph_has_edge, existsb_elem_of. eauto.
  - apply neighbors_edge_data. by rewrite has_edge_edge_data, bool_decide_eq_true in Hnm.
Qed.

Lemma build_graph_no_isolated_node_witness :
  "Bob" ∈ Graph.nodes (build_graph [("Ada", "related_to", "Bob")]) ∧
  ∃ m, Graph.has_edge (build_graph [("Ada", "related_to", "Bob")]) "Bob" m = true
       ∧ Graph.has_edge (build_graph [("Ada", "related_to", "Bob")]) m "Bob" = true
       ∧ m ∈ Graph.neighbors (build_graph [("Ada", "related_to", "Bob")]) "Bob".
Proof.
  assert ("Bob" ∈ Graph.nodes (build_graph [("Ada", "related_to", "Bob")])) as H.
  { vm_compute. reflexivity. }
  split; [exact H|].
  exact (build_graph_no_isolated_node [("Ada", "related_to", "Bob")] "Bob" H).
Defined.

Section SelfLoops.

Variable nlp : string → list string.

(** C9. When the entity sequence of one of the texts has the same surface
    string twice in a row, [extract_triples] emits a triple whose subject
    and object are that string, and the graph [build_graph] returns for
    these triples has that string as a node with an edge to itself,
    labelled "related_to". *)
Theorem repeated_entity_self_loop
    (texts : list string) (text : string) (pre post : list string) (s : string) :
  text ∈ texts →
  nlp text = pre ++ s :: s :: post →
  ∃ triples G,
    extract_triples nlp texts = Some triples
    ∧ (s, "related_to", s) ∈ triples
    ∧ knowledge_graph nlp texts = Some G
    ∧ G = build_graph triples
    ∧ s ∈ Graph.nodes G
    ∧ Graph.has_edge G s s = true
    ∧ Graph.edge_label G s s = Some "related_to".
Proof.
  intros Htext Hents. eexists _, _. unfold knowledge_graph.
  rewrite extract_triples_total. simpl.
  assert ((s, "related_to", s) ∈ mjoin ((adjacent_triples ∘ nlp) <$> texts)) as Hin.
  { apply elem_of_mjoin_fmap with text; [done|]. simpl. rewrite Hents.
    apply adjacent_triples_middle. }
  assert (Graph.has_edge (build_graph (mjoin ((adjacent_triples ∘ nlp) <$> texts))) s s = true)
    as Hedge.
  { rewrite build_graph_has_edge, existsb_elem_of. eexists; split; [exact Hin|].
    apply bool_decide_eq_true. simpl. by left. }
  repeat split; try done.
  - rewrite build_graph_nodes, existsb_elem_of. eexists; split; [exact Hin|].
    apply bool_decide_eq_true. simpl. by left.
  - by apply related_to_label; [apply extracted_label|].
Qed.

End SelfLoops.

(** ** Duplicated and reversed triples *)

Lemma joins_mentions (n : string) (t t' : triple) :
  joins t.1.1 t.2 t' = true → mentions n t = true → mentions n t' = true.
Proof.
  unfold joins, mentions. rewrite !bool_decide_eq_true. naive_solver.
Qed.

Lemma joins_same_pair (u v : string) (t t' : triple) :
  same_pair t t' = true → joins u v t = true → joins u v t' = true.
Proof.
  unfold same_pair, joins. rewrite !bool_decide_eq_true. naive_solver.
Qed.

Lemma joins_sym (u v : string) (t : triple) : joins u v t = joins v u t.
Proof. unfold joins. apply bool_decide_ext. naive_solver. Qed.

Lemma existsb_absorb {A : Type} (f : A → bool) (x : A) (l : list A) :
  (f x = true → existsb f l = true) → f x || existsb f l = existsb f l.
Proof. destruct (f x), (existsb f l); naive_solver. Qed.

Lemma dedup_pairs_mentions (triples : list triple) (n : string) :
  existsb (mentions n) (dedup_pairs triples) = existsb (mentions n) triples.
Proof.
  induction triples as [|t rest IH]; [done|]. simpl.
  destruct (existsb (same_pair t) rest) eqn:Hdup; simpl; rewrite IH; [|done].
  symmetry. apply existsb_absorb. intros Hn.
  apply existsb_elem_of in Hdup as (t' & Ht' & Hsame).
  apply existsb_elem_of. exists t'. split; [done|].
  by apply (joins_mentions n t t').
Qed.

Lemma dedup_pairs_last_label (triples : list triple) (u v : string) :
  last_label u v (dedup_pairs triples) = last_label u v triples.
Proof.
  induction triples as [|t rest IH]; [done|]. simpl.
  destruct (existsb (same_pair t) rest) eqn:Hdup.
  - rewrite IH, last_label_cons.
    destruct (last_label u v rest) as [q|] eqn:Hq; [done|].
    destruct (joins u v t) eqn:Hj; [|done]. exfalso.
    apply existsb_elem_of in Hdup as (t' & Ht' & Hsame).
    assert (is_Some (last_label u v rest)) as [? ?]; [|congruence].
    apply last_label_is_Some, existsb_elem_of. exists t'. split; [done|].
    by apply (joins_same_pair u v t t').
  - by rewrite !last_label_cons, IH.
Qed.

Lemma dedup_pairs_joins (triples : list triple) (u v : string) :
  existsb (joins u v) (dedup_pairs triples) = existsb (joins u v) triples.
Proof.
  apply eq_true_iff_eq. by rewrite <- !last_label_is_Some, dedup_pairs_last_label.
Qed.

Lemma dedup_pairs_unique (triples : list triple) :
  unique_pairs (dedup_pairs triples) = true.
Proof.
  induction triples as [|t rest IH]; [done|]. simpl.
  destruct (existsb (same_pair t) rest) eqn:Hdup; [done|]. simpl.
  change (same_pair t) with (joins t.1.1 t.2) in *.
  by rewrite dedup_pairs_joins, Hdup, IH.
Qed.

Lemma dedup_pairs_sublist (triples : list triple) :
  sublist (dedup_pairs triples) triples.
Proof.
  induction triples as [|t rest IH]; [done|]. simpl.
  destruct (existsb (same_pair t) rest); by constructor.
Qed.

(** Adding a triple whose pair already has that label changes nothing. *)
Lemma build_graph_readd (triples : list triple) (s p o : string) :
  last_label s o triples = Some p →
  build_graph (triples ++ [(s, p, o)]) = build_graph triples.
Proof.
  intros Hlab. apply build_graph_ext.
  - intros n. rewrite existsb_app. cbn [existsb]. rewrite orb_false_r.
    destruct (mentions n (s, p, o)) eqn:Hn; [|by rewrite orb_false_r].
    rewrite orb_true_r. symmetry.
    apply last_label_Some in Hlab as (t & Ht & Hj & _).
    apply existsb_elem_of. exists t. split; [done|].
    revert Hn Hj. unfold joins, mentions. rewrite !bool_decide_eq_true. simpl. naive_solver.
  - intros u v. rewrite last_label_snoc.
    destruct (joins u v (s, p, o)) eqn:Hj; [|done]. simpl.
    apply bool_decide_eq_true in Hj. simpl in Hj.
    destruct Hj as [[-> ->]|[-> ->]]; [done | by rewrite last_label_sym].
Qed.

Lemma build_graph_snoc_sym (triples : list triple) (s p o : string) :
  build_graph (triples ++ [(o, p, s)]) = build_graph (triples ++ [(s, p, o)]).
Proof.
  apply build_graph_ext.
  - intros n. rewrite !existsb_app. f_equal. cbn [existsb]. f_equal.
    unfold mentions. apply bool_decide_ext. simpl. naive_solver.
  - intros u v. rewrite !last_label_snoc. simpl.
    replace (joins u v (o, p, s)) with (joins u v (s, p, o)); [done|].
    unfold joins. apply bool_decide_ext. simpl. naive_solver.
Qed.

Lemma last_label_snoc_eq (triples : list triple) (s p o : string) :
  last_label s o (triples ++ [(s, p, o)]) = Some p.
Proof.
  rewrite last_label_snoc. unfold joins. simpl.
  rewrite bool_decide_eq_true_2; [done | by left].
Qed.

(** A triple on a pair that is joined already adds no node and no edge;
    it sets the label of the edge, read in either direction. *)
Lemma build_graph_overwrite (triples : list triple) (s p o : string) :
  Graph.has_edge (build_graph triples) s o = true →
  Graph.nodes (build_graph (triples ++ [(s, p, o)])) = Graph.nodes (build_graph triples)
  ∧ (∀ u v, Graph.has_edge (build_graph (triples ++ [(s, p, o)])) u v
            = Graph.has_edge (build_graph triples) u v)
  ∧ Graph.edge_label (build_graph (triples ++ [(s, p, o)])) s o = Some p
  ∧ Graph.edge_label (build_graph (triples ++ [(s, p, o)])) o s = Some p.
Proof.
  rewrite build_graph_has_edge. intros Hso.
  assert (∀ u v, joins u v (s, p, o) = true → existsb (joins u v) triples = true)
    as Hjoin.
  { intros u v [[<- <-]|[<- <-]]%bool_decide_eq_true; simpl; [done|].
    apply existsb_elem_of in Hso as (t & Ht & Hj). apply existsb_elem_of.
    exists t. by rewrite joins_sym. }
  split; [|split; [|split]].
  - apply set_eq. intros n. rewrite !build_graph_nodes, existsb_app. cbn [existsb].
    rewrite orb_false_r, orb_true_iff. split; [|by left]. intros [Hn|Hn]; [done|].
    apply existsb_elem_of in Hso as (t & Ht & Hj). apply existsb_elem_of.
    exists t. split; [done|].
    revert Hn Hj. unfold joins, mentions. rewrite !bool_decide_eq_true. simpl. naive_solver.
  - intros u v. rewrite !build_graph_has_edge, existsb_app. cbn [existsb].
    rewrite orb_false_r. destruct (joins u v (s, p, o)) eqn:Hj; [|by rewrite orb_false_r].
    rewrite orb_true_r. symmetry. by apply Hjoin.
  - rewrite build_graph_edge_label. apply last_label_snoc_eq.
  - rewrite build_graph_edge_label, last_label_sym. apply last_label_snoc_eq.
Qed.

(** C8. Adding an edge is idempotent and symmetric, for every triple
    list: once an edge between two entity strings is in the graph,
    adding it again, in either end point order, leaves the graph as it
    is (a triple with another label on a pair that is joined already
    adds no node and no edge either: it overwrites the label); adding an
    edge twice in a row, or once in each direction, is adding it once;
    and the direction of a triple does not matter. Hence the graph of a
    triple list is the graph of the list in which every unordered pair
    is kept once (of the triples on a pair the last one, whose label the
    edge carries), a sublist without two triples on the same pair. *)
Theorem build_graph_idempotent_symmetric :
  (∀ (triples : list triple) (s p o : string),
     Graph.edge_label (build_graph triples) s o = Some p →
     build_graph (triples ++ [(s, p, o)]) = build_graph triples
     ∧ build_graph (triples ++ [(o, p, s)]) = build_graph triples)
  ∧ (∀ (triples : list triple) (s p o : string),
       Graph.has_edge (build_graph triples) s o = true →
       Graph.nodes (build_graph (triples ++ [(s, p, o)])) = Graph.nodes (build_graph triples)
       ∧ (∀ u v, Graph.has_edge (build_graph (triples ++ [(s, p, o)])) u v
                 = Graph.has_edge (build_graph triples) u v)
       ∧ Graph.edge_label (build_graph (triples ++ [(s, p, o)])) s o = Some p
       ∧ Graph.edge_label (build_graph (triples ++ [(s, p, o)])) o s = Some p)
  ∧ (∀ (triples : list triple) (s p o : string),
       build_graph (triples ++ [(s, p, o); (s, p, o)]) = build_graph (triples ++ [(s, p, o)])
       ∧ build_graph (triples ++ [(s, p, o); (o, p, s)]) = build_graph (triples ++ [(s, p, o)])
       ∧ build_graph (triples ++ [(o, p, s)]) = build_graph (triples ++ [(s, p, o)]))
  ∧ (∀ triples : list triple,
       build_graph triples = build_graph (dedup_pairs triples)
       ∧ unique_pairs (dedup_pairs triples) = true
       ∧ sublist (dedup_pairs triples) triples).
Proof.
  split; [|split; [|split]].
  - intros triples s p o. rewrite build_graph_edge_label. intros Hlab. split.
    + by apply build_graph_readd.
    + apply build_graph_readd. by rewrite last_label_sym.
  - apply build_graph_overwrite.
  - intros triples s p o. split; [|split].
    + change [(s, p, o); (s, p, o)] with ([(s, p, o)] ++ [(s, p, o)]).
      rewrite (assoc_L (++)). apply build_graph_readd, last_label_snoc_eq.
    + change [(s, p, o); (o, p, s)] with ([(s, p, o)] ++ [(o, p, s)]).
      rewrite (assoc_L (++)). apply build_graph_readd.
      rewrite last_label_sym. apply last_label_snoc_eq.
    + apply build_graph_snoc_sym.
  - intros triples. split; [|split].
    + apply build_graph_ext; intros.
      * by rewrite dedup_pairs_mentions.
      * by rewrite dedup_pairs_last_label.
    + apply dedup_pairs_unique.
    + apply dedup_pairs_sublist.
Qed.

Lemma build_graph_idempotent_symmetric_witness :
  Graph.edge_label (build_graph [("Ada", "related_to", "Bob")]) "Bob" "Ada"
    = Some "related_to"
  ∧ build_graph ([("Ada", "related_to", "Bob")] ++ [("Bob", "related_to", "Ada")])
    = build_graph [("Ada", "related_to", "Bob")].
Proof.
  split; [vm_compute; reflexivity|].
  apply (proj1 build_graph_idempotent_symmetric
           [("Ada", "related_to", "Bob")] "Bob" "related_to" "Ada").
  vm_compute; reflexivity.
Defined.

Lemma repeated_entity_self_loop_witness :
  "tour of Paris Paris Lyon" ∈ ["tour of Paris Paris Lyon"]
  ∧ word_ner "tour of Paris Paris Lyon" = [] ++ "Paris" :: "Paris" :: ["Lyon"]
  ∧ ∃ triples G,
      extract_triples word_ner ["tour of Paris Paris Lyon"] = Some triples
      ∧ ("Paris", "related_to", "Paris") ∈ triples
      ∧ knowledge_graph word_ner ["tour of Paris Paris Lyon"] = Some G
      ∧ G = build_graph triples
      ∧ "Paris" ∈ Graph.nodes G
      ∧ Graph.has_edge G "Paris" "Paris" = true
      ∧ Graph.edge_label G "Paris" "Paris" = Some "related_to".
Proof.
  assert ("tour of Paris Paris Lyon" ∈ ["tour of Paris Paris Lyon"]) as Hin by left.
  assert (word_ner "tour of Paris Paris Lyon" = [] ++ "Paris" :: "Paris" :: ["Lyon"])
    as Hents by (vm_compute; reflexivity).
  split; [exact Hin|]. split; [exact Hents|].
  exact (repeated_entity_self_loop word_ner _ _ _ _ _ Hin Hents).
Defined.

(** ** The graph of a set of texts *)

Section Texts.

Variable nlp : string → list string.

Lemma knowledge_graph_total (texts : list string) :
  knowledge_graph nlp texts = Some (build_graph (triples_of nlp texts)).
Proof. unfold knowledge_graph. by rewrite extract_triples_total. Qed.

Lemma triples_of_app (texts1 texts2 : list string) :
  triples_of nlp (texts1 ++ texts2) = triples_of nlp texts1 ++ triples_of nlp texts2.
Proof. unfold triples_of. by rewrite fmap_app, join_app. Qed.

Lemma triples_of_singleton (text : string) :
  triples_of nlp [text] = adjacent_triples (nlp text).
Proof. unfold triples_of. simpl. by rewrite app_nil_r. Qed.

(** The graph of a text with three distinct entities in a row is the
    chain over them. *)
Lemma chain_of_three (text A B C : string) :
  nlp text = [A; B; C] → A ≠ B → B ≠ C → A ≠ C →
  ∃ G, knowledge_graph nlp [text] = Some G
       ∧ Graph.has_edge G A B = true
       ∧ Graph.has_edge G B C = true
       ∧ Graph.edge_label G A B = Some "related_to"
       ∧ Graph.edge_label G B C = Some "related_to"
       ∧ Graph.has_edge G A C = false.
Proof.
  intros Hents HAB HBC HAC. eexists. split; [apply knowledge_graph_total|].
  rewrite triples_of_singleton, Hents, !build_graph_edge_label, !build_graph_has_edge.
  cbn [adjacent_triples zip_with tail existsb]. unfold last_label, joins. simpl.
  repeat case_bool_decide; naive_solver.
Qed.

(** Among other texts, the edges of the chain are still there. *)
Lemma chain_edges_in_context (texts : list string) (text A B C : string) :
  text ∈ texts → nlp text = [A; B; C] →
  ∃ G, knowledge_graph nlp texts = Some G
       ∧ Graph.has_edge G A B = true
       ∧ Graph.has_edge G B C = true
       ∧ Graph.edge_label G A B = Some "related_to"
       ∧ Graph.edge_label G B C = Some "related_to".
Proof.
  intros Htext Hents. eexists. split; [apply knowledge_graph_total|].
  assert (∀ a b, (a, "related_to", b) ∈ adjacent_triples (nlp text) →
            Graph.has_edge (build_graph (triples_of nlp texts)) a b = true) as Hedge.
  { intros a b Hab. rewrite build_graph_has_edge, existsb_elem_of.
    exists (a, "related_to", b). split.
    - by apply (elem_of_mjoin_fmap (adjacent_triples ∘ nlp) texts text).
    - apply bool_decide_eq_true. simpl. by left. }
  assert (Graph.has_edge (build_graph (triples_of nlp texts)) A B = true) as HAB.
  { apply Hedge. rewrite Hents. apply (adjacent_triples_middle [] [C]). }
  assert (Graph.has_edge (build_graph (triples_of nlp texts)) B C = true) as HBC.
  { apply Hedge. rewrite Hents. apply (adjacent_triples_middle [A] []). }
  repeat split; try done; by apply related_to_label; [apply extracted_label|].
Qed.

(** A text with at most one entity adds nothing. *)
Lemma short_text_no_edges (pre post : list string) (text : string) :
  length (nlp text) ≤ 1 →
  extract_triples nlp (pre ++ text :: post) = extract_triples nlp (pre ++ post)
  ∧ knowledge_graph nlp (pre ++ text :: post) = knowledge_graph nlp (pre ++ post)
  ∧ extract_triples nlp [text] = Some []
  ∧ knowledge_graph nlp [text] = Some Graph.empty.
Proof.
  intros Hlen. pose proof (adjacent_triples_short _ Hlen) as Hnil.
  assert (triples_of nlp (pre ++ text :: post) = triples_of nlp (pre ++ post)) as Heq.
  { rewrite !triples_of_app. f_equal.
    change (text :: post) with ([text] ++ post).
    by rewrite triples_of_app, triples_of_singleton, Hnil. }
  rewrite !knowledge_graph_total, !extract_triples_total.
  fold (triples_of nlp (pre ++ text :: post)) (triples_of nlp (pre ++ post)) (triples_of nlp [text]).
  by rewrite Heq, triples_of_singleton, Hnil.
Qed.

(** The graph of two texts: the nodes and the edges of the graphs of
    each. *)
Lemma merge_two_texts (t1 t2 : string) :
  ∃ G G1 G2,
    knowledge_graph nlp [t1; t2] = Some G
    ∧ knowledge_graph nlp [t1] = Some G1
    ∧ knowledge_graph nlp [t2] = Some G2
    ∧ Graph.nodes G = Graph.nodes G1 ∪ Graph.nodes G2
    ∧ (∀ u v, Graph.has_edge G u v = Graph.has_edge G1 u v || Graph.has_edge G2 u v)
    ∧ (∀ u v, Graph.edge_label G u v =
              if Graph.has_edge G u v then Some "related_to" else None)
    ∧ (∀ s, s ∈ nlp t1 ∨ s ∈ nlp t2 → node_count G s ≤ 1)
    ∧ (∀ s, s ∈ nlp t1 ∧ 2 ≤ length (nlp t1) ∨ s ∈ nlp t2 ∧ 2 ≤ length (nlp t2) →
            node_count G s = 1%nat).
Proof.
  eexists _, _, _. split; [apply knowledge_graph_total|].
  split; [apply knowledge_graph_total|]. split; [apply knowledge_graph_total|].
  change [t1; t2] with ([t1] ++ [t2]). rewrite triples_of_app, !triples_of_singleton.
  split; [|split; [|split; [|split]]].
  - apply set_eq. intros n. rewrite elem_of_union, !build_graph_nodes, existsb_app.
    apply orb_true_iff.
  - intros u v. by rewrite !build_graph_has_edge, existsb_app.
  - intros u v.
    destruct (Graph.has_edge _ u v) eqn:Hedge.
    + apply related_to_label; [|done]. intros t [Ht|Ht]%elem_of_app;
        by apply adjacent_triples_label in Ht.
    + rewrite build_graph_edge_label.
      rewrite has_edge_edge_data, build_graph_edge_data in Hedge.
      apply bool_decide_eq_false in Hedge. rewrite fmap_is_Some in Hedge.
      destruct (last_label u v _); [|done]. exfalso. eauto.
  - intros s _. rewrite node_count_nodes. case_decide; lia.
  - intros s Hs. rewrite node_count_nodes, decide_True; [done|].
    rewrite build_graph_nodes, existsb_app. apply orb_true_iff.
    destruct Hs as [[? ?]|[? ?]]; [left | right]; by apply adjacent_triples_mentions.
Qed.

End Texts.

(** C1, as amended. Whatever the NER pipeline: (1) a text whose entity
    sequence is [A, B, C], three distinct strings, gives a graph with the
    edges (A,B) and (B,C), both labelled "related_to", and without an
    edge (A,C); among other texts the two edges are there all the same;
    (2) a text with no entity or one contributes no triple and no edge;
    (3) the graph of two texts has the nodes and the edges of the graphs
    of each, every edge labelled "related_to", and a string is never the
    name of two nodes: an entity of either text is at most one node, and
    exactly one node when its text has two entities or more. *)
Theorem knowledge_graph_chain_merge (nlp : string → list string) :
  (∀ text A B C : string,
     nlp text = [A; B; C] → A ≠ B → B ≠ C → A ≠ C →
     (∃ G, knowledge_graph nlp [text] = Some G
           ∧ Graph.has_edge G A B = true
           ∧ Graph.has_edge G B C = true
           ∧ Graph.edge_label G A B = Some "related_to"
           ∧ Graph.edge_label G B C = Some "related_to"
           ∧ Graph.has_edge G A C = false)
     ∧ (∀ texts : list string, text ∈ texts →
          ∃ G, knowledge_graph nlp texts = Some G
               ∧ Graph.has_edge G A B = true
               ∧ Graph.has_edge G B C = true
               ∧ Graph.edge_label G A B = Some "related_to"
               ∧ Graph.edge_label G B C = Some "related_to"))
  ∧ (∀ (pre post : list string) (text : string),
       length (nlp text) ≤ 1 →
       extract_triples nlp (pre ++ text :: post) = extract_triples nlp (pre ++ post)
       ∧ knowledge_graph nlp (pre ++ text :: post) = knowledge_graph nlp (pre ++ post)
       ∧ extract_triples nlp [text] = Some []
       ∧ knowledge_graph nlp [text] = Some Graph.empty)
  ∧ (∀ t1 t2 : string,
       ∃ G G1 G2,
         knowledge_graph nlp [t1; t2] = Some G
         ∧ knowledge_graph nlp [t1] = Some G1
         ∧ knowledge_graph nlp [t2] = Some G2
         ∧ Graph.nodes G = Graph.nodes G1 ∪ Graph.nodes G2
         ∧ (∀ u v, Graph.has_edge G u v = Graph.has_edge G1 u v || Graph.has_edge G2 u v)
         ∧ (∀ u v, Graph.edge_label G u v =
                   if Graph.has_edge G u v then Some "related_to" else None)
         ∧ (∀ s, s ∈ nlp t1 ∨ s ∈ nlp t2 → node_count G s ≤ 1)
         ∧ (∀ s, s ∈ nlp t1 ∧ 2 ≤ length (nlp t1) ∨ s ∈ nlp t2 ∧ 2 ≤ length (nlp t2) →
                 node_count G s = 1%nat)).
Proof.
  split; [|split].
  - intros text A B C Hents HAB HBC HAC. split.
    + by apply chain_of_three.
    + intros texts Htext. by apply chain_edges_in_context with text.
  - apply short_text_no_edges.
  - apply merge_two_texts.
Qed.

Lemma knowledge_graph_chain_merge_witness :
  word_ner "Ada met Bob in Paris" = ["Ada"; "Bob"; "Paris"]
  ∧ ∃ G, knowledge_graph word_ner ["Ada met Bob in Paris"] = Some G
         ∧ Graph.has_edge G "Ada" "Bob" = true
         ∧ Graph.has_edge G "Bob" "Paris" = true
         ∧ Graph.edge_label G "Ada" "Bob" = Some "related_to"
         ∧ Graph.edge_label G "Bob" "Paris" = Some "related_to"
         ∧ Graph.has_edge G "Ada" "Paris" = false.
Proof.
  assert (word_ner "Ada met Bob in Paris" = ["Ada"; "Bob"; "Paris"]) as Hents
    by (vm_compute; reflexivity).
  split; [exact Hents|].
  refine (proj1 (proj1 (knowledge_graph_chain_merge word_ner)
                   "Ada met Bob in Paris" "Ada" "Bob" "Paris" Hents _ _ _));
    discriminate.
Defined.

(** C1 as stated fails where it promises a node: two texts can share an
    entity that is the only entity of each, and then the merged graph is
    empty and has no node for the shared string. *)
Lemma shared_lone_entity_has_no_node :
  "Paris" ∈ word_ner "we visited Paris"
  ∧ "Paris" ∈ word_ner "in spring Paris is nice"
  ∧ knowledge_graph word_ner ["we visited Paris"; "in spring Paris is nice"]
    = Some Graph.empty
  ∧ Graph.has_node Graph.empty "Paris" = false
  ∧ node_count Graph.empty "Paris" = 0%nat
  ∧ ¬ (∃ G, knowledge_graph word_ner ["we visited Paris"; "in spring Paris is nice"]
            = Some G ∧ node_count G "Paris" = 1%nat).
Proof.
  assert (knowledge_graph word_ner ["we visited Paris"; "in spring Paris is nice"]
          = Some Graph.empty) as HG by (vm_compute; reflexivity).
  split; [vm_compute; by left|]. split; [vm_compute; by left|].
  split; [exact HG|]. split; [vm_compute; reflexivity|].
  split; [vm_compute; reflexivity|].
  intros (G & HG' & Hcount). rewrite HG in HG'. injection HG' as <-.
  vm_compute in Hcount. discriminate.
Qed.

(** ** PDF text extraction *)

Section ExtractionFacts.

Variables File Page : Type.
Variable PdfReader : File → option (reader Page).
Variable extract_text : Page → string.

(** The loop over the pages of one file appends their texts. *)
Lemma page_loop (r : reader Page) (texts : list string) :
  for_each (pages r) (λ texts page, Some (texts ++ [extract_text page])) texts
  = Some (texts ++ (extract_text <$> pages r)).
Proof.
  rewrite (for_each_append (pages r) (λ page, [extract_text page])). do 2 f_equal.
  induction (pages r) as [|page l IH]; [done|]. simpl. f_equal. exact IH.
Qed.

Lemma file_loop (files : list File) (texts : list string) :
  Forall (λ file, is_Some (PdfReader file)) files →
  for_each files
    (λ texts file,
       reader ← PdfReader file;
       for_each (pages reader)
         (λ texts page, Some (texts ++ [extract_text page]))
         texts)
    texts
  = Some (texts ++ mjoin (page_texts File Page PdfReader extract_text <$> files)).
Proof.
  intros Hall. revert texts. induction Hall as [|file files [r Hr] _ IH]; intros texts.
  - simpl. by rewrite app_nil_r.
  - cbn [for_each]. rewrite Hr. cbn [mbind option_bind]. rewrite page_loop.
    cbn [mbind option_bind]. rewrite IH, fmap_cons, mjoin_cons, <- app_assoc.
    do 3 f_equal. unfold page_texts. by rewrite Hr.
Qed.

Lemma length_page_texts (file : File) :
  length (page_texts File Page PdfReader extract_text file)
  = page_count File Page PdfReader file.
Proof.
  unfold page_texts, page_count. destruct (PdfReader file); simpl; [|done].
  by rewrite length_fmap.
Qed.

Lemma length_all_page_texts (files : list File) :
  length (mjoin (page_texts File Page PdfReader extract_text <$> files))
  = sum_list (page_count File Page PdfReader <$> files).
Proof.
  induction files as [|file files IH]; [done|]. rewrite !fmap_cons.
  rewrite mjoin_cons, length_app, length_page_texts, IH. done.
Qed.

(** Where the text of page [i] of file [j] is in the texts of all the
    files: after the texts of the files before it and the pages before
    it. *)
Lemma lookup_all_page_texts (files : list File) (j i : nat) (file : File)
    (r : reader Page) (page : Page) :
  files !! j = Some file → PdfReader file = Some r → pages r !! i = Some page →
  mjoin (page_texts File Page PdfReader extract_text <$> files)
    !! (sum_list (page_count File Page PdfReader <$> take j files) + i)%nat
  = Some (extract_text page).
Proof.
  intros Hj Hr Hi. rewrite <- (take_drop_middle files j file Hj) at 2.
  rewrite fmap_app, join_app, <- length_all_page_texts, lookup_app_r by lia.
  replace (_ + i - _)%nat with i by lia. rewrite fmap_cons, mjoin_cons.
  rewrite lookup_app_l.
  - unfold page_texts. rewrite Hr. simpl. by rewrite list_lookup_fmap, Hi.
  - rewrite length_page_texts. unfold page_count. rewrite Hr. simpl.
    by apply lookup_lt_Some in Hi.
Qed.

(** With readable files the extraction returns the page texts of each
    file, file after file. *)
Lemma extract_text_from_pdfs_total (files : list File) :
  Forall (λ file, is_Some (PdfReader file)) files →
  extract_text_from_pdfs File Page PdfReader extract_text files
  = Some (mjoin (page_texts File Page PdfReader extract_text <$> files)).
Proof. intros Hall. unfold extract_text_from_pdfs. by rewrite file_loop. Qed.

(** C5. For files that can all be read, [extract_text_from_pdfs] returns
    a list that has as many entries as the files have pages in total, and
    that is the texts of the pages of the first file in page order, then
    those of the second file, and so on: the text of page [i] of file [j]
    comes after the texts of all the pages of the files before [j] and of
    the pages before [i]. *)
Theorem extract_text_from_pdfs_file_then_page (files : list File) :
  Forall (λ file, is_Some (PdfReader file)) files →
  ∃ texts,
    extract_text_from_pdfs File Page PdfReader extract_text files = Some texts
    ∧ length texts = sum_list (page_count File Page PdfReader <$> files)
    ∧ texts = mjoin (page_texts File Page PdfReader extract_text <$> files)
    ∧ ∀ (j i : nat) (file : File) (r : reader Page) (page : Page),
        files !! j = Some file → PdfReader file = Some r → pages r !! i = Some page →
        texts !! (sum_list (page_count File Page PdfReader <$> take j files) + i)%nat
        = Some (extract_text page).
Proof.
  intros Hall. eexists. split; [by apply extract_text_from_pdfs_total|].
  split; [apply length_all_page_texts|]. split; [done|].
  apply lookup_all_page_texts.
Qed.

(** A file that cannot be read aborts the whole extraction. *)
Lemma extract_text_from_pdfs_unreadable (files : list File) (file : File) :
  file ∈ files → PdfReader file = None →
  extract_text_from_pdfs File Page PdfReader extract_text files = None.
Proof.
  intros Hin Hnone. unfold extract_text_from_pdfs.
  generalize (@nil string) at 2. revert Hin.
  induction files as [|f files IH]; intros Hin acc; [by inversion Hin|].
  cbn [for_each]. destruct (PdfReader f) as [r|] eqn:Hr; [|done].
  cbn [mbind option_bind]. rewrite page_loop. cbn [mbind option_bind].
  apply IH. apply elem_of_cons in Hin as [->|Hin]; [congruence | done].
Qed.

End ExtractionFacts.

Lemma extract_text_from_pdfs_file_then_page_witness :
  Forall (λ file, is_Some (list_reader file))
         [Some ["cover"; "page two"]; Some []; Some ["appendix"]]
  ∧ ∃ texts,
      extract_text_from_pdfs _ _ list_reader id
        [Some ["cover"; "page two"]; Some []; Some ["appendix"]] = Some texts
      ∧ length texts = 3%nat
      ∧ texts = ["cover"; "page two"; "appendix"].
Proof.
  assert (Forall (λ file, is_Some (list_reader file))
            [Some ["cover"; "page two"]; Some []; Some ["appendix"]]) as Hall.
  { repeat constructor; by eexists. }
  split; [exact Hall|].
  destruct (extract_text_from_pdfs_file_then_page _ _ list_reader id _ Hall)
    as (texts & Hrun & Hlen & Htexts & _).
  exists texts. split; [exact Hrun|]. split; [exact Hlen|]. exact Htexts.
Defined.

(** ** Sorting by rank *)

Section SortBy.

Context {A : Type}.
Variable leb : A → A → bool.
Hypothesis leb_total : ∀ a b, leb a b = true ∨ leb b a = true.
Hypothesis leb_trans : ∀ a b c, leb a b = true → leb b c = true → leb a c = true.

Lemma insert_by_Permutation (x : A) (l : list A) : insert_by leb x l ≡ₚ x :: l.
Proof.
  induction l as [|y l IH]; simpl; [done|].
  destruct (leb x y); [done|]. rewrite IH. apply Permutation_swap.
Qed.

Lemma sort_by_Permutation (l : list A) : sort_by leb l ≡ₚ l.
Proof.
  induction l as [|x l IH]; simpl; [done|].
  by rewrite insert_by_Permutation, IH.
Qed.

Lemma sort_by_length (l : list A) : length (sort_by leb l) = length l.
Proof. by rewrite sort_by_Permutation. Qed.

Lemma insert_by_sorted (x : A) (l : list A) :
  StronglySorted (λ a b, leb a b = true) l →
  StronglySorted (λ a b, leb a b = true) (insert_by leb x l).
Proof.
  induction 1 as [|y l Hl IH Hy]; simpl.
  - repeat constructor.
  - destruct (leb x y) eqn:Hxy.
    + constructor; [by constructor|]. constructor; [done|].
      eapply Forall_impl; [exact Hy|]. intros z Hyz. by eapply leb_trans.
    + constructor; [done|]. rewrite insert_by_Permutation. constructor; [|done].
      destruct (leb_total x y); congruence.
Qed.

Lemma sort_by_sorted (l : list A) :
  StronglySorted (λ a b, leb a b = true) (sort_by leb l).
Proof.
  induction l as [|x l IH]; simpl; [constructor|]. by apply insert_by_sorted.
Qed.

End SortBy.

Lemma StronglySorted_take {A : Type} (R : relation A) (k : nat) (l : list A) :
  StronglySorted R l → StronglySorted R (take k l).
Proof.
  intros Hl. revert k. induction Hl as [|x l Hl IH Hx]; intros [|k]; simpl;
    try constructor; [apply IH|].
  eapply Forall_forall. intros y Hy. eapply Forall_forall in Hx; [exact Hx|].
  eapply subseteq_take, Hy.
Qed.

Lemma StronglySorted_fmap_strong {A B : Type} (R : relation A) (R' : relation B)
    (f : A → B) (l : list A) :
  (∀ a b, a ∈ l → b ∈ l → R a b → R' (f a) (f b)) →
  StronglySorted R l → StronglySorted R' (f <$> l).
Proof.
  intros Hf Hl. induction Hl as [|x l Hl IH Hx]; simpl; constructor.
  - apply IH. intros a b Ha Hb. apply Hf; by right.
  - apply Forall_fmap, Forall_forall. intros y Hy. simpl.
    apply Hf; [by left | by right |]. by eapply Forall_forall in Hx.
Qed.

(** ** Retrieval *)

Section Retrieval.

Variables Vec Score : Type.
Variable embed : string → Vec.
Variable similarity : Vec → Vec → Score.
Variable score_leb : Score → Score → bool.
Hypothesis score_total : ∀ a b, score_leb a b = true ∨ score_leb b a = true.
Hypothesis score_trans :
  ∀ a b c, score_leb a b = true → score_leb b c = true → score_leb a c = true.

(** C2. The retrieval step of [ask_question] returns [min 3 n] chunks of
    an index of [n] chunks: the first three of the indexed chunks ranked
    by similarity to the embedding of the question, the most similar
    first. For an index made by [create_vector_store] from [n] chunks the
    chunks returned are among these, there are [min 3 n] of them, and the
    similarity of the embedding of their text to the embedding of the
    question does not increase along the list. *)
Theorem retrieve_top_three :
  (∀ (vector_db : VectorStore.t Vec) (question : string),
     length (retrieve Vec Score embed similarity score_leb vector_db question)
     = 3 `min` length (VectorStore.entries Vec vector_db)
     ∧ ∃ ranked : list (Vec * Document),
         ranked ≡ₚ VectorStore.entries Vec vector_db
         ∧ StronglySorted
             (λ a b, score_leb (similarity (embed question) b.1)
                               (similarity (embed question) a.1) = true)
             ranked
         ∧ retrieve Vec Score embed similarity score_leb vector_db question
           = (take 3 ranked).*2)
  ∧ (∀ (docs : list Document) (question : string),
       let hits := retrieve Vec Score embed similarity score_leb
                     (create_vector_store embed docs) question in
       length hits = 3 `min` length docs
       ∧ hits ⊆ docs
       ∧ StronglySorted
           (λ d1 d2, score_leb
                       (similarity (embed question) (embed (page_content d2)))
                       (similarity (embed question) (embed (page_content d1))) = true)
           hits).
Proof.
  assert (∀ q a b, VectorStore.ranks_before Vec Score similarity score_leb q a b = true
                   ∨ VectorStore.ranks_before Vec Score similarity score_leb q b a = true)
    as Htotal by (intros; apply score_total).
  assert (∀ q a b c,
            VectorStore.ranks_before Vec Score similarity score_leb q a b = true →
            VectorStore.ranks_before Vec Score similarity score_leb q b c = true →
            VectorStore.ranks_before Vec Score similarity score_leb q a c = true)
    as Htrans by (unfold VectorStore.ranks_before; eauto).
  assert (∀ (vector_db : VectorStore.t Vec) (question : string),
     length (retrieve Vec Score embed similarity score_leb vector_db question)
     = 3 `min` length (VectorStore.entries Vec vector_db)
     ∧ ∃ ranked : list (Vec * Document),
         ranked ≡ₚ VectorStore.entries Vec vector_db
         ∧ StronglySorted
             (λ a b, score_leb (similarity (embed question) b.1)
                               (similarity (embed question) a.1) = true)
             ranked
         ∧ retrieve Vec Score embed similarity score_leb vector_db question
           = (take 3 ranked).*2) as Hgeneral.
  { intros vector_db question. unfold retrieve, VectorStore.similarity_search. split.
    - by rewrite length_fmap, length_take, sort_by_length.
    - eexists. split; [apply sort_by_Permutation|]. split; [|done].
      apply (sort_by_sorted _ (Htotal _) (Htrans _)). }
  split; [exact Hgeneral|].
  intros docs question hits.
  destruct (Hgeneral (create_vector_store embed docs) question)
    as (Hlen & ranked & Hperm & Hsorted & Hhits).
  fold hits in Hlen, Hhits. simpl in Hlen, Hperm. rewrite length_fmap in Hlen.
  assert (∀ e, e ∈ ranked → e.2 ∈ docs ∧ e.1 = embed (page_content e.2)) as Hentry.
  { intros e He. rewrite Hperm in He.
    apply list_elem_of_fmap in He as (d & -> & Hd). done. }
  split; [done|]. split.
  - intros d Hd. rewrite Hhits in Hd.
    apply list_elem_of_fmap in Hd as (e & -> & He).
    apply Hentry. eapply subseteq_take, He.
  - rewrite Hhits.
    apply StronglySorted_fmap_strong with
      (R := λ a b, score_leb (similarity (embed question) b.1)
                             (similarity (embed question) a.1) = true).
    + intros a b Ha%subseteq_take Hb%subseteq_take.
      destruct (Hentry a Ha) as [_ <-]. by destruct (Hentry b Hb) as [_ <-].
    + by apply StronglySorted_take.
Qed.

End Retrieval.

Lemma retrieve_top_three_witness :
  length (retrieve Z Z length_embedding closeness Z.leb
            (create_vector_store length_embedding sample_chunks) "why")
  = 3 `min` length sample_chunks
  ∧ retrieve Z Z length_embedding closeness Z.leb
      (create_vector_store length_embedding sample_chunks) "why" ⊆ sample_chunks
  ∧ StronglySorted
      (λ d1 d2, Z.leb
                  (closeness (length_embedding "why") (length_embedding (page_content d2)))
                  (closeness (length_embedding "why") (length_embedding (page_content d1)))
                = true)
      (retrieve Z Z length_embedding closeness Z.leb
         (create_vector_store length_embedding sample_chunks) "why").
Proof.
  refine (proj2 (retrieve_top_three Z Z length_embedding closeness Z.leb _ _)
            sample_chunks "why").
  - intros a b. rewrite !Z.leb_le. lia.
  - intros a b c. rewrite !Z.leb_le. lia.
Defined.

Example retrieve_sample :
  page_content <$> retrieve Z Z length_embedding closeness Z.leb
                     (create_vector_store length_embedding sample_chunks) "why"
  = ["be"; "pi"; "alpha"].
Proof. vm_compute. reflexivity. Qed.

(** ** The chatbot *)

Lemma split_on_nonempty (c : ascii) (s : string) : split_on c s ≠ [].
Proof.
  destruct s as [|a s]; simpl; [done|].
  destruct (Ascii.eqb a c); [done|]. by destruct (split_on c s).
Qed.

(** Splitting at a separator splits each side of it. *)
Lemma split_on_app (c : ascii) (a b : string) :
  split_on c (a +:+ String c b) = split_on c a ++ split_on c b.
Proof.
  induction a as [|x a IH]; simpl.
  - by rewrite Ascii.eqb_refl.
  - destruct (Ascii.eqb x c); [by rewrite IH|]. rewrite IH.
    pose proof (split_on_nonempty c a). by destruct (split_on c a).
Qed.

Lemma join_newline_separated (texts : list string) :
  join nl texts = newline_separated texts.
Proof.
  unfold join. induction texts as [|text [|text' rest] IH]; [done..|].
  change (String.concat nl (text :: text' :: rest))
    with (text +:+ nl +:+ String.concat nl (text' :: rest)).
  by rewrite IH.
Qed.

(** The lines of a newline-separated block are the lines of its texts,
    in order. *)
Lemma newline_separated_lines (texts : list string) :
  texts ≠ [] →
  split_on "010" (newline_separated texts) = mjoin (split_on "010" <$> texts).
Proof.
  induction texts as [|text [|text' rest] IH]; intros Hne; [done|..].
  - simpl. by rewrite app_nil_r.
  - change (newline_separated (text :: text' :: rest))
      with (text +:+ String "010" (newline_separated (text' :: rest))).
    rewrite split_on_app, IH by done. done.
Qed.

Section ChatbotFacts.

Variables Vec Score : Type.
Variable embedding_model : string → Vec.
Variable similarity : Vec → Vec → Score.
Variable score_leb : Score → Score → bool.
Variable llm : string → list (gmap string string).

(** The retrieval step returns three chunks at most. *)
Lemma retrieve_at_most_three (vector_db : VectorStore.t Vec) (question : string) :
  length (retrieve Vec Score embedding_model similarity score_leb vector_db question) ≤ 3.
Proof.
  unfold retrieve, VectorStore.similarity_search.
  rewrite length_fmap, length_take. lia.
Qed.

(** C3. For every index and question, with [docs] the chunks of the
    retrieval step in the order it returns them (nearest first): the
    context block of [ask_question] is the texts of [docs] in that order
    with a line feed between each two (so its lines are the lines of the
    texts, in order), it stands in the prompt between the "Context:" and
    the "Question:" lines, and [ask_question] returns the pair of the
    text of the first generation for that prompt and [docs] themselves,
    whenever the generation pipeline returns a generation. *)
Theorem ask_question_context_and_sources
    (vector_db : VectorStore.t Vec) (question : string) :
  let docs := retrieve Vec Score embedding_model similarity score_leb vector_db question in
  let prompt := prompt_of (context_of docs) question in
  context_of docs = newline_separated (page_content <$> docs)
  ∧ match page_content <$> docs with
    | [] => context_of docs = ""
    | [a] => context_of docs = a
    | [a; b] => context_of docs = a +:+ nl +:+ b
    | [a; b; c] => context_of docs = a +:+ nl +:+ b +:+ nl +:+ c
    | _ => False
    end
  ∧ (docs ≠ [] →
     split_on "010" (context_of docs) = mjoin (split_on "010" <$> (page_content <$> docs)))
  ∧ prompt = prompt_header +:+ "Context:" +:+ nl +:+ context_of docs +:+ nl +:+ nl
             +:+ "Question:" +:+ nl +:+ question +:+ prompt_footer
  ∧ (∀ (generation : gmap string string) (others : list (gmap string string))
       (response : string),
       llm prompt = generation :: others →
       generation !! "generated_text" = Some response →
       ask_question Vec Score embedding_model similarity score_leb llm vector_db question
       = Some (response, docs))
  ∧ (∀ result : string * list Document,
       ask_question Vec Score embedding_model similarity score_leb llm vector_db question
       = Some result →
       result.2 = docs
       ∧ ∃ generation, llm prompt !! 0%nat = Some generation
                       ∧ generation !! "generated_text" = Some result.1).
Proof.
  intros docs prompt.
  assert (context_of docs = newline_separated (page_content <$> docs)) as Hctx
    by apply join_newline_separated.
  split; [exact Hctx|]. split; [|split; [|split; [|split]]].
  - pose proof (retrieve_at_most_three vector_db question) as Hlen. fold docs in Hlen.
    rewrite Hctx. rewrite <- (length_fmap page_content) in Hlen.
    destruct (page_content <$> docs) as [|a [|b [|c [|d rest]]]]; simpl in *; (done || lia).
  - intros Hne. rewrite Hctx. apply newline_separated_lines.
    by destruct docs.
  - reflexivity.
  - intros generation others response Hllm Hgen. unfold ask_question.
    fold docs. fold prompt. rewrite Hllm. simpl. rewrite Hgen. done.
  - intros result. unfold ask_question. fold docs. fold prompt.
    destruct (llm prompt !! 0%nat) as [generation|]; [|done]. simpl.
    destruct (generation !! "generated_text") as [response|] eqn:Hgen; [|done]. simpl.
    intros [= <-]. eauto.
Qed.

End ChatbotFacts.

Lemma ask_question_context_and_sources_witness :
  fallback_llm
    (prompt_of
       (context_of (retrieve Z Z length_embedding closeness Z.leb
                      (create_vector_store length_embedding sample_chunks) "why"))
       "why")
  = [{["generated_text" := "Answer not found in the documents."]}]
  ∧ ask_question Z Z length_embedding closeness Z.leb fallback_llm
      (create_vector_store length_embedding sample_chunks) "why"
    = Some ("Answer not found in the documents.",
            retrieve Z Z length_embedding closeness Z.leb
              (create_vector_store length_embedding sample_chunks) "why").
Proof.
  split; [reflexivity|].
  pose proof (ask_question_context_and_sources Z Z length_embedding closeness Z.leb
                fallback_llm (create_vector_store length_embedding sample_chunks) "why")
    as H.
  cbv zeta in H. destruct H as (_ & _ & _ & _ & H & _).
  apply (H {["generated_text" := "Answer not found in the documents."]} []).
  - reflexivity.
  - vm_compute. reflexivity.
Defined.

(** * Further properties of the code *)

(** ** Extraction: failure and composition *)

Lemma for_each_seq {A S : Type} (xs ys : list A) (body : S → A → option S) (s : S) :
  for_each (xs ++ ys) body s = s' ← for_each xs body s; for_each ys body s'.
Proof.
  revert s. induction xs as [|x xs IH]; intros s; simpl; [done|].
  destruct (body s x) as [s'|]; simpl; [apply IH | done].
Qed.

Section ExtractionMore.

Variables File Page : Type.
Variable PdfReader : File → option (reader Page).
Variable extract_text : Page → string.

(** The loop over the files with texts already collected: they stay in
    front of what the loop adds. *)
Lemma file_loop_acc (files : list File) (texts : list string) :
  for_each files
    (λ texts file,
       reader ← PdfReader file;
       for_each (pages reader)
         (λ texts page, Some (texts ++ [extract_text page]))
         texts)
    texts
  = (texts ++.) <$> extract_text_from_pdfs File Page PdfReader extract_text files.
Proof.
  unfold extract_text_from_pdfs. revert texts.
  induction files as [|file files IH]; intros texts.
  - simpl. by rewrite app_nil_r.
  - cbn [for_each]. destruct (PdfReader file) as [r|]; [|done].
    cbn [mbind option_bind]. rewrite !page_loop. cbn [mbind option_bind].
    rewrite IH, (IH ([] ++ _)). simpl.
    destruct (for_each files _ []) as [rest|]; simpl; [|done].
    by rewrite app_assoc.
Qed.

(** X1. When [PdfReader] cannot read one of the files,
    [extract_text_from_pdfs] raises, wherever the file is in the list
    and whatever comes after it: the texts of the files before it, which
    were read, are not returned. *)
Theorem extract_text_from_pdfs_aborts (before after : list File) (file : File) :
  PdfReader file = None →
  extract_text_from_pdfs File Page PdfReader extract_text (before ++ file :: after) = None
  ∧ (Forall (λ f, is_Some (PdfReader f)) before →
     extract_text_from_pdfs File Page PdfReader extract_text before
     = Some (mjoin (page_texts File Page PdfReader extract_text <$> before))).
Proof.
  intros Hfile. split.
  - apply extract_text_from_pdfs_unreadable with file; [|done].
    apply elem_of_app. right. by left.
  - apply extract_text_from_pdfs_total.
Qed.

(** X2. Extracting from two batches of files one after the other is
    extracting from each and appending the texts; it fails when either
    batch fails, and no file gives no text. *)
Theorem extract_text_from_pdfs_app (files1 files2 : list File) :
  extract_text_from_pdfs File Page PdfReader extract_text (files1 ++ files2)
  = (texts1 ← extract_text_from_pdfs File Page PdfReader extract_text files1;
     texts2 ← extract_text_from_pdfs File Page PdfReader extract_text files2;
     Some (texts1 ++ texts2))
  ∧ extract_text_from_pdfs File Page PdfReader extract_text [] = Some [].
Proof.
  split; [|done]. unfold extract_text_from_pdfs at 1. rewrite for_each_seq.
  fold (extract_text_from_pdfs File Page PdfReader extract_text files1).
  destruct (extract_text_from_pdfs _ _ _ _ files1) as [texts1|]; simpl; [|done].
  rewrite file_loop_acc.
  by destruct (extract_text_from_pdfs _ _ _ _ files2).
Qed.

End ExtractionMore.

Lemma extract_text_from_pdfs_aborts_witness :
  extract_text_from_pdfs (option (list string)) string list_reader id
    ([Some ["cover"; "page two"]] ++ None :: [Some ["appendix"]]) = None
  ∧ (Forall (λ f, is_Some (list_reader f)) [Some ["cover"; "page two"]] →
     extract_text_from_pdfs (option (list string)) string list_reader id
       [Some ["cover"; "page two"]]
     = Some (mjoin (page_texts (option (list string)) string list_reader id
                      <$> [Some ["cover"; "page two"]]))).
Proof.
  exact (extract_text_from_pdfs_aborts _ _ list_reader id
           [Some ["cover"; "page two"]] [Some ["appendix"]] None eq_refl).
Defined.

(** ** Triples: bounds, membership and composition *)

Lemma adjacent_triples_lookup (l : list string) (i : nat) (t : triple) :
  adjacent_triples l !! i = Some t
  ↔ t.1.2 = "related_to" ∧ l !! i = Some t.1.1 ∧ l !! S i = Some t.2.
Proof.
  unfold adjacent_triples. rewrite lookup_zip_with, lookup_tail.
  destruct t as [[s p] o]. simpl.
  destruct (l !! i) as [s'|]; simpl; [|naive_solver].
  destruct (l !! S i) as [o'|]; simpl; naive_solver.
Qed.

Lemma adjacent_triples_length (l : list string) :
  length (adjacent_triples l) = (length l - 1)%nat.
Proof.
  induction l as [|a [|b l] IH]; [done..|].
  rewrite adjacent_triples_cons. simpl in *. lia.
Qed.

Lemma triples_of_length (nlp : string → list string) (texts : list string) :
  length (triples_of nlp texts)
  = sum_list ((λ text, length (nlp text) - 1)%nat <$> texts).
Proof.
  unfold triples_of. induction texts as [|text texts IH]; [done|].
  rewrite !fmap_cons, mjoin_cons, length_app, IH. simpl.
  by rewrite adjacent_triples_length.
Qed.

Lemma triples_of_elem_of (nlp : string → list string) (texts : list string) (t : triple) :
  t ∈ triples_of nlp texts
  ↔ t.1.2 = "related_to"
    ∧ ∃ text i, text ∈ texts ∧ nlp text !! i = Some t.1.1 ∧ nlp text !! S i = Some t.2.
Proof.
  unfold triples_of. rewrite list_elem_of_join. split.
  - intros (l & Ht & (text & -> & Htext)%list_elem_of_fmap). simpl in Ht.
    apply list_elem_of_lookup in Ht as [i Hi].
    apply adjacent_triples_lookup in Hi as (? & ? & ?). eauto 10.
  - intros (Hp & text & i & Htext & Hs & Ho).
    exists (adjacent_triples (nlp text)). split.
    + apply list_elem_of_lookup. exists i. by apply adjacent_triples_lookup.
    + apply list_elem_of_fmap. by exists text.
Qed.

Section TriplesMore.

Variable nlp : string → list string.

(** X3. [extract_triples] never raises: the indices [i] and [i + 1] of
    its inner loop stay within the entity list, also for a text without
    entities. A text with [n] entities gives [n - 1] triples ([0] when
    it has none), so the result has the sum of these over the texts. *)
Theorem extract_triples_count (texts : list string) :
  ∃ triples,
    extract_triples nlp texts = Some triples
    ∧ length triples = sum_list ((λ text, length (nlp text) - 1)%nat <$> texts).
Proof.
  eexists. split; [apply extract_triples_total|]. apply triples_of_length.
Qed.

(** X4. The triples [extract_triples] returns are exactly the triples
    [(s, "related_to", o)] where [o] comes right after [s] in the entity
    sequence of one of the texts: no other predicate, and no pair across
    two texts or across a gap. *)
Theorem extract_triples_elem_of (texts : list string) :
  ∃ triples,
    extract_triples nlp texts = Some triples
    ∧ ∀ s p o : string,
        (s, p, o) ∈ triples
        ↔ p = "related_to"
          ∧ ∃ text i, text ∈ texts ∧ nlp text !! i = Some s ∧ nlp text !! S i = Some o.
Proof.
  eexists. split; [apply extract_triples_total|].
  intros s p o. apply (triples_of_elem_of nlp texts (s, p, o)).
Qed.

(** X5. The triples of two batches of texts are the triples of the first
    batch followed by those of the second; no text gives no triple. *)
Theorem extract_triples_app (texts1 texts2 : list string) :
  extract_triples nlp (texts1 ++ texts2)
  = (triples1 ← extract_triples nlp texts1;
     triples2 ← extract_triples nlp texts2;
     Some (triples1 ++ triples2))
  ∧ extract_triples nlp [] = Some [].
Proof.
  split; [|done]. rewrite !extract_triples_total. simpl.
  by rewrite fmap_app, join_app.
Qed.

(** X6. The triples of one text form a chain in document order: the
    object of each triple is the subject of the next one. *)
Theorem extract_triples_chain (text : string) :
  ∃ triples,
    extract_triples nlp [text] = Some triples
    ∧ ∀ (i : nat) (t1 t2 : triple),
        triples !! i = Some t1 → triples !! S i = Some t2 → t1.2 = t2.1.1.
Proof.
  eexists. split; [apply extract_triples_total|]. simpl. rewrite app_nil_r.
  intros i t1 t2 (_ & _ & H1)%adjacent_triples_lookup (_ & H2 & _)%adjacent_triples_lookup.
  congruence.
Qed.

End TriplesMore.

(** ** The graph: what it contains *)

Lemma existsb_elem_ext {A : Type} (f : A → bool) (l1 l2 : list A) :
  (∀ x, x ∈ l1 ↔ x ∈ l2) → existsb f l1 = existsb f l2.
Proof.
  intros Hl. apply eq_true_iff_eq. rewrite !existsb_elem_of.
  by setoid_rewrite Hl.
Qed.

(** When every triple carries the label [p], an edge carries [p]. *)
Lemma last_label_uniform (p u v : string) (triples : list triple) :
  (∀ t, t ∈ triples → t.1.2 = p) →
  last_label u v triples = if existsb (joins u v) triples then Some p else None.
Proof.
  intros Hlab. destruct (last_label u v triples) as [q|] eqn:Hq.
  - assert (existsb (joins u v) triples = true) as ->
      by (apply last_label_is_Some; eauto).
    apply last_label_Some in Hq as (t & Ht & _ & <-). f_equal. by apply Hlab.
  - destruct (existsb (joins u v) triples) eqn:Hex; [|done].
    apply last_label_is_Some in Hex as [? ?]. congruence.
Qed.

Lemma triples_of_label (nlp : string → list string) (texts : list string) (t : triple) :
  t ∈ triples_of nlp texts → t.1.2 = "related_to".
Proof. by intros [? _]%triples_of_elem_of. Qed.

Section GraphContents.

Variable nlp : string → list string.

(** X7. The nodes of the knowledge graph are exactly the entities of
    the texts that have two entities or more: the only entity of a text
    is not a node, unless another text brings it. *)
Theorem knowledge_graph_nodes (texts : list string) :
  ∃ G, knowledge_graph nlp texts = Some G
       ∧ ∀ n, n ∈ Graph.nodes G
              ↔ ∃ text, text ∈ texts ∧ n ∈ nlp text ∧ 2 ≤ length (nlp text).
Proof.
  eexists. split; [apply knowledge_graph_total|]. intros n.
  rewrite build_graph_nodes, existsb_elem_of. split.
  - intros (t & (_ & text & i & Htext & Hs & Ho)%triples_of_elem_of & Hn).
    apply bool_decide_eq_true in Hn. exists text. split; [done|]. split.
    + destruct Hn as [-> | ->]; eapply list_elem_of_lookup_2; eauto.
    + apply lookup_lt_Some in Ho. lia.
  - intros (text & Htext & Hn & Hlen).
    apply (adjacent_triples_mentions _ _ Hn), existsb_elem_of in Hlen as (t & Ht & Hm).
    exists t. split; [|done].
    by apply (elem_of_mjoin_fmap (adjacent_triples ∘ nlp) texts text).
Qed.

(** X8. Two strings are joined by an edge of the knowledge graph exactly
    when one comes right after the other in the entity sequence of one
    of the texts, in either order; and every edge is labelled
    "related_to". *)
Theorem knowledge_graph_edges (texts : list string) :
  ∃ G, knowledge_graph nlp texts = Some G
       ∧ (∀ u v, Graph.has_edge G u v = true
                 ↔ ∃ text i, text ∈ texts
                     ∧ (nlp text !! i = Some u ∧ nlp text !! S i = Some v
                        ∨ nlp text !! i = Some v ∧ nlp text !! S i = Some u))
       ∧ (∀ u v, Graph.edge_label G u v
                 = if Graph.has_edge G u v then Some "related_to" else None).
Proof.
  eexists. split; [apply knowledge_graph_total|]. split.
  - intros u v. rewrite build_graph_has_edge, existsb_elem_of. split.
    + intros ([[s p] o] & (_ & text & i & Htext & Hs & Ho)%triples_of_elem_of & Hj).
      apply bool_decide_eq_true in Hj. simpl in *. exists text, i. naive_solver.
    + intros (text & i & Htext & [[Hu Hv]|[Hv Hu]]).
      * exists (u, "related_to", v). split.
        -- apply triples_of_elem_of. simpl. eauto 10.
        -- apply bool_decide_eq_true. simpl. by left.
      * exists (v, "related_to", u). split.
        -- apply triples_of_elem_of. simpl. eauto 10.
        -- apply bool_decide_eq_true. simpl. by right.
  - intros u v. rewrite build_graph_edge_label, build_graph_has_edge.
    apply last_label_uniform. apply triples_of_label.
Qed.

(** X9. The knowledge graph is the empty graph exactly when no text has
    two entities: with two entities in one text there is a node. *)
Theorem knowledge_graph_empty_iff (texts : list string) :
  knowledge_graph nlp texts = Some Graph.empty
  ↔ ∀ text, text ∈ texts → length (nlp text) ≤ 1.
Proof.
  rewrite knowledge_graph_total. split.
  - intros [= HG] text Htext. destruct (decide (length (nlp text) ≤ 1)) as [|Hlen]; [done|].
    exfalso. destruct (nlp text) as [|n l] eqn:Hents; [simpl in Hlen; lia|].
    assert (n ∈ Graph.nodes (build_graph (triples_of nlp texts))) as Hn.
    { rewrite build_graph_nodes, existsb_elem_of.
      assert (existsb (mentions n) (adjacent_triples (nlp text)) = true) as Hex.
      { apply adjacent_triples_mentions; rewrite Hents; [by left | simpl in *; lia]. }
      apply existsb_elem_of in Hex as (t & Ht & Hm). exists t. split; [|done].
      by apply (elem_of_mjoin_fmap (adjacent_triples ∘ nlp) texts text). }
    rewrite HG in Hn. unfold Graph.nodes in Hn. simpl in Hn. set_solver.
  - intros Hshort. f_equal.
    assert (triples_of nlp texts = []) as ->; [|done].
    unfold triples_of. induction texts as [|text texts IH]; [done|].
    rewrite fmap_cons, mjoin_cons, IH.
    + simpl. rewrite adjacent_triples_short; [done|]. apply Hshort. by left.
    + intros text' Htext'. apply Hshort. by right.
Qed.

(** X10. The knowledge graph depends on the set of the texts only: the
    same texts in another order, or with a text twice, give the same
    graph. *)
Theorem knowledge_graph_same_texts (texts1 texts2 : list string) :
  (∀ text, text ∈ texts1 ↔ text ∈ texts2) →
  knowledge_graph nlp texts1 = knowledge_graph nlp texts2.
Proof.
  intros Hsame. rewrite !knowledge_graph_total. f_equal.
  assert (∀ t, t ∈ triples_of nlp texts1 ↔ t ∈ triples_of nlp texts2) as Htriples.
  { intros t. rewrite !triples_of_elem_of. by setoid_rewrite Hsame. }
  apply build_graph_ext.
  - intros n. by apply existsb_elem_ext.
  - intros u v.
    rewrite !(last_label_uniform "related_to") by apply triples_of_label.
    by rewrite (existsb_elem_ext _ _ _ Htriples).
Qed.

End GraphContents.

Lemma knowledge_graph_same_texts_witness :
  knowledge_graph word_ner ["Ada met Bob"; "Bob saw Cy"; "Ada met Bob"]
  = knowledge_graph word_ner ["Bob saw Cy"; "Ada met Bob"].
Proof.
  apply (knowledge_graph_same_texts word_ner).
  intros text. rewrite !elem_of_cons, !elem_of_nil. tauto.
Defined.

(** ** The graph: invariants of [build_graph] *)

(** X11. Whatever the triples, the graph of [build_graph] is an
    undirected graph over its nodes: an edge is there in both directions
    with the same attributes, its end points are nodes, a node carries
    no attribute, an edge carries the attribute "label" and no other,
    and the node and adjacency dictionaries have the same keys. *)
Theorem build_graph_undirected (triples : list triple) :
  graph_wf (build_graph triples)
  ∧ (∀ u v, Graph.has_edge (build_graph triples) u v
            = Graph.has_edge (build_graph triples) v u)
  ∧ (∀ u v, Graph.edge_data (build_graph triples) u v
            = Graph.edge_data (build_graph triples) v u)
  ∧ (∀ u v, Graph.has_edge (build_graph triples) u v = true →
            u ∈ Graph.nodes (build_graph triples)
            ∧ v ∈ Graph.nodes (build_graph triples))
  ∧ (∀ n a, Graph._node (build_graph triples) !! n = Some a → a = ∅)
  ∧ (∀ u v d, Graph.edge_data (build_graph triples) u v = Some d →
              ∃ p, d = {["label" := p]}).
Proof.
  split; [apply build_graph_wf|]. split; [|split; [|split; [|split]]].
  - intros u v. rewrite !build_graph_has_edge.
    apply eq_true_iff_eq. rewrite <- !last_label_is_Some. by rewrite last_label_sym.
  - intros u v. by rewrite !build_graph_edge_data, last_label_sym.
  - intros u v. rewrite build_graph_has_edge, !build_graph_nodes, !existsb_elem_of.
    intros (t & Ht & Hj). apply bool_decide_eq_true in Hj.
    split; exists t; (split; [done|]); apply bool_decide_eq_true; naive_solver.
  - intros n a. rewrite build_graph_node.
    destruct (existsb (mentions n) triples); naive_solver.
  - intros u v d. rewrite build_graph_edge_data.
    destruct (last_label u v triples) as [p|]; simpl; [|done]. intros [= <-]. eauto.
Qed.

(** X12. [build_graph] only adds: the nodes and the edges of the graph
    of a triple list are nodes and edges of the graph of any longer
    list that starts with it. *)
Theorem build_graph_grows (triples more : list triple) :
  Graph.nodes (build_graph triples) ⊆ Graph.nodes (build_graph (triples ++ more))
  ∧ ∀ u v, Graph.has_edge (build_graph triples) u v = true →
           Graph.has_edge (build_graph (triples ++ more)) u v = true.
Proof.
  split.
  - intros n. rewrite !build_graph_nodes, existsb_app, orb_true_iff. by left.
  - intros u v. rewrite !build_graph_has_edge, existsb_app, orb_true_iff. by left.
Qed.

Lemma build_graph_nodes_snoc (triples : list triple) (s p o : string) :
  Graph.nodes (build_graph (triples ++ [(s, p, o)]))
  = Graph.nodes (build_graph triples) ∪ {[s; o]}.
Proof.
  apply set_eq. intros n.
  rewrite elem_of_union, !build_graph_nodes, existsb_app, orb_true_iff.
  cbn [existsb]. rewrite orb_false_r. unfold mentions at 2.
  rewrite bool_decide_eq_true. simpl. set_solver.
Qed.

(** X13. A graph built from [n] triples has at most [2 * n] nodes. *)
Theorem build_graph_node_bound (triples : list triple) :
  size (Graph.nodes (build_graph triples)) ≤ 2 * length triples.
Proof.
  induction triples as [|[[s p] o] triples IH] using rev_ind.
  - done.
  - rewrite build_graph_nodes_snoc, length_app, size_union_alt. simpl.
    assert (size (({[s; o]} : gset string) ∖ Graph.nodes (build_graph triples)) ≤ 2).
    { etransitivity; [apply subseteq_size, subseteq_difference_l; reflexivity|].
      rewrite size_union_alt, size_singleton.
      assert (size (({[o]} : gset string) ∖ {[s]}) ≤ 1); [|lia].
      etransitivity; [apply subseteq_size, subseteq_difference_l; reflexivity|].
      by rewrite size_singleton. }
    lia.
Qed.

(** ** The prompt and the context block *)

Lemma string_app_assoc (a b c : string) : (a +:+ b) +:+ c = a +:+ (b +:+ c).
Proof.
  induction a as [|x a IH]; [done|].
  change (String x ((a +:+ b) +:+ c) = String x (a +:+ (b +:+ c))). by rewrite IH.
Qed.

(** X15. The prompt does not keep the context and the question apart:
    a context that ends with a "Question:" block and the text [y] gives
    the same prompt as the shorter context with [y] and a "Question:"
    block put in front of the question. So the context and the question
    cannot be read back from the prompt. *)
Theorem prompt_of_not_injective :
  (∀ x y z : string,
     prompt_of (x +:+ nl +:+ nl +:+ "Question:" +:+ nl +:+ y) z
     = prompt_of x (y +:+ nl +:+ nl +:+ "Question:" +:+ nl +:+ z))
  ∧ ¬ (∀ context question context' question' : string,
         prompt_of context question = prompt_of context' question' →
         context = context' ∧ question = question').
Proof.
  assert (∀ x y z : string,
     prompt_of (x +:+ nl +:+ nl +:+ "Question:" +:+ nl +:+ y) z
     = prompt_of x (y +:+ nl +:+ nl +:+ "Question:" +:+ nl +:+ z)) as Heq.
  { intros x y z. unfold prompt_of.
    change (?a = ?b) with
      (prompt_header +:+ "Context:" +:+ nl
         +:+ ((x +:+ nl +:+ nl +:+ "Question:" +:+ nl +:+ y)
              +:+ nl +:+ nl +:+ "Question:" +:+ nl +:+ z +:+ prompt_footer)
       = prompt_header +:+ "Context:" +:+ nl
         +:+ (x +:+ nl +:+ nl +:+ "Question:" +:+ nl
              +:+ (y +:+ nl +:+ nl +:+ "Question:" +:+ nl +:+ z) +:+ prompt_footer)).
    do 3 f_equal. rewrite !string_app_assoc. reflexivity. }
  split; [exact Heq|]. intros Hinj.
  destruct (Hinj _ _ _ _ (Heq "" "" "")) as [Hctx _]. discriminate.
Qed.

Lemma split_on_free (c : ascii) (s : string) :
  contains_char c s = false → split_on c s = [s].
Proof.
  induction s as [|a s IH]; simpl; [done|].
  intros [Ha Hs]%orb_false_iff. rewrite Ha, IH; done.
Qed.

Lemma newline_separated_split (texts : list string) :
  texts ≠ [] → Forall (λ text, contains_char "010" text = false) texts →
  split_on "010" (newline_separated texts) = texts.
Proof.
  intros Hne Hfree. rewrite newline_separated_lines by done.
  clear Hne. induction Hfree as [|text texts Htext _ IH]; [done|].
  by rewrite fmap_cons, mjoin_cons, split_on_free, IH.
Qed.

(** X16. When no chunk text contains a line feed, the context block
    determines the chunk texts and their order: two non-empty lists of
    such chunks with the same context block have the same texts. *)
Theorem context_of_injective (docs1 docs2 : list Document) :
  docs1 ≠ [] → docs2 ≠ [] →
  Forall (λ d, contains_char "010" (page_content d) = false) (docs1 ++ docs2) →
  context_of docs1 = context_of docs2 →
  page_content <$> docs1 = page_content <$> docs2.
Proof.
  intros Hne1 Hne2 [Hfree1 Hfree2]%Forall_app Hctx.
  unfold context_of in Hctx. rewrite !join_newline_separated in Hctx.
  rewrite <- (newline_separated_split (page_content <$> docs1)),
          <- (newline_separated_split (page_content <$> docs2)).
  - by rewrite Hctx.
  - by destruct docs2.
  - by apply Forall_fmap.
  - by destruct docs1.
  - by apply Forall_fmap.
Qed.

Lemma context_of_injective_witness :
  page_content <$> [ {| page_content := "alpha"; metadata := ∅ |};
                     {| page_content := "beta"; metadata := {["page" := "1"]} |} ]
  = page_content <$> [ {| page_content := "alpha"; metadata := {["page" := "2"]} |};
                       {| page_content := "beta"; metadata := ∅ |} ].
Proof.
  apply context_of_injective.
  - discriminate.
  - discriminate.
  - repeat constructor.
  - reflexivity.
Defined.

(** ** [ask_question]: the empty retrieval *)

Section AskMore.

Variables Vec Score : Type.
Variable embedding_model : string → Vec.
Variable similarity : Vec → Vec → Score.
Variable score_leb : Score → Score → bool.
Variable llm : string → list (gmap string string).

(** X18. [ask_question] has no guard for an empty retrieval: when the
    retrieval step returns no chunk, the generation pipeline is still
    asked, with an empty context block, and its answer is returned with
    an empty list of sources. *)
Theorem ask_question_without_chunks
    (vector_db : VectorStore.t Vec) (question response : string)
    (generation : gmap string string) (others : list (gmap string string)) :
  retrieve Vec Score embedding_model similarity score_leb vector_db question = [] →
  llm (prompt_of "" question) = generation :: others →
  generation !! "generated_text" = Some response →
  ask_question Vec Score embedding_model similarity score_leb llm vector_db question
  = Some (response, []).
Proof.
  intros Hnone Hllm Hgen. unfold ask_question. rewrite Hnone.
  change (context_of []) with "". rewrite Hllm. simpl. by rewrite Hgen.
Qed.

End AskMore.

Lemma ask_question_without_chunks_witness :
  ask_question Z Z length_embedding closeness Z.leb fallback_llm
    {| VectorStore.entries := [] |} "why"
  = Some ("Answer not found in the documents.", []).
Proof.
  apply (ask_question_without_chunks Z Z length_embedding closeness Z.leb fallback_llm
           {| VectorStore.entries := [] |} "why"
           "Answer not found in the documents."
           {["generated_text" := "Answer not found in the documents."]} []).
  - reflexivity.
  - reflexivity.
  - vm_compute. reflexivity.
Defined.

(** ** The script *)

Section AppFacts.

Variables File Page : Type.
Variable PdfReader : File → option (reader Page).
Variable extract_text : Page → string.
Variable RecursiveCharacterTextSplitter : nat → nat → string → list string.
Variables Vec Score : Type.
Variable embedding_model : string → Vec.
Variable similarity : Vec → Vec → Score.
Variable score_leb : Score → Score → bool.
Variable llm : string → list (gmap string string).
Variable nlp : string → list string.

(** X19. One file that cannot be read makes the whole run of the script
    fail, whatever the other files, the question and the button: no
    answer is written and no graph is drawn, also when no question was
    asked. *)
Theorem app_unreadable_file
    (uploaded_files : list File) (file : File) (question : string) (show_graph : bool) :
  file ∈ uploaded_files → PdfReader file = None →
  app File Page PdfReader extract_text RecursiveCharacterTextSplitter Vec Score
      embedding_model similarity score_leb llm nlp uploaded_files question show_graph
  = None.
Proof.
  intros Hin Hfile. unfold app. destruct uploaded_files as [|f files]; [by inversion Hin|].
  by rewrite (extract_text_from_pdfs_unreadable _ _ _ _ _ file Hin Hfile).
Qed.


End AppFacts.

Lemma app_unreadable_file_witness :
  app (option (list string)) string list_reader id window_splitter Z Z
      length_embedding closeness Z.leb fallback_llm word_ner
      [Some ["Ada met Bob"]; None] "" true
  = None.
Proof.
  apply (app_unreadable_file _ _ list_reader id window_splitter Z Z
           length_embedding closeness Z.leb fallback_llm word_ner
           [Some ["Ada met Bob"]; None] None "" true).
  - right. left.
  - reflexivity.
Defined.


(** ** Self-loops *)

(** X21. The knowledge graph has a self-loop on a string exactly when
    that string occurs twice in a row in the entity sequence of one of
    the texts; an entity that recurs further on in a text, or in another
    text, gives none. *)
Theorem knowledge_graph_self_loop_iff (nlp : string → list string)
    (texts : list string) :
  ∃ G, knowledge_graph nlp texts = Some G
       ∧ ∀ n, Graph.has_edge G n n = true
              ↔ ∃ text i, text ∈ texts
                  ∧ nlp text !! i = Some n ∧ nlp text !! S i = Some n.
Proof.
  eexists. split; [apply knowledge_graph_total|]. intros n.
  rewrite build_graph_has_edge, existsb_elem_of. split.
  - intros ([[s p] o] & (_ & text & i & Htext & Hs & Ho)%triples_of_elem_of & Hj).
    apply bool_decide_eq_true in Hj. simpl in *. exists text, i. naive_solver.
  - intros (text & i & Htext & Hs & Ho). exists (n, "related_to", n). split.
    + apply triples_of_elem_of. simpl. eauto 10.
    + apply bool_decide_eq_true. simpl. by left.
Qed.
